(** * Job orchestrator: persisted schema, operator UI and smoke test

    A shallow embedding of the parts of the repository that the
    specification talks about and that are present in the sources:

    - the SQL migrations of the orchestrator ([jobs], [job_events],
      [dataset_locks], [webhook_outbox], [workers]) with the meaning of
      [CREATE TABLE IF NOT EXISTS], [ALTER TABLE .. ADD COLUMN IF NOT EXISTS],
      [CREATE INDEX IF NOT EXISTS], column defaults, [NOT NULL] and
      [PRIMARY KEY];
    - the React operator UI ([JobTable], [JobDrawer], [CreateJobModal],
      [isTerminal]) and its API client ([http]);
    - the PowerShell smoke test of the dataset lock.

    The [documents] table of the knowledge service and the view
    components that only render are left out. Definitions come first,
    theorems follow. *)

From Stdlib Require Import ZArith NArith Floats Ascii String.
From Stdlib Require Import Numbers.DecimalString Numbers.DecimalN.
From stdpp Require Import base list strings gmap sorting.

Set Warnings "-register-all,-clear-no-such-hyp".

Local Open Scope Z_scope.
Local Open Scope string_scope.
Local Open Scope list_scope.

(** ** Part I. The SQL migrations *)

Module Sql.

(** Column types that occur in the migrations. *)
Inductive sqltype := UUID | TEXT | JSONB | TIMESTAMPTZ | INT | BIGSERIAL.

(** JSONB documents; a number is [mantissa * 10 ^ exponent]. *)
Inductive json :=
| JNull
| JBool (b : bool)
| JNumber (mantissa exponent : Z)
| JString (s : string)
| JArray (items : list json)
| JObject (fields : list (string * json)).

(** Values stored in a column. *)
Inductive value :=
| VNull
| VUuid (u : N)
| VText (s : string)
| VJson (j : json)
| VTime (t : Z)
| VInt (z : Z).

(** [DEFAULT] expressions: ['pending'], ['{}'], [NOW()], [0]. *)
Inductive default_expr :=
| DText (s : string)
| DJson (j : json)
| DNow
| DInt (z : Z).

(** [REFERENCES t(c) [ON DELETE CASCADE]]. *)
Record reference := { ref_table : string; ref_column : string; ref_cascade : bool }.

Record column := {
  cname : string;
  ctype : sqltype;
  cnotnull : bool;
  cdefault : option default_expr;
  cprimary : bool;
  creferences : option reference
}.

Inductive direction := ASC | DESC.

(** A column of an index; [idir = None] when the statement gives no
    direction. *)
Record index_column := { icol : string; idir : option direction }.

(** The only [WHERE] clause of the migrations is [c IS NULL]. *)
Inductive predicate := IsNull (c : string).

Record index := {
  iname : string;
  itable : string;
  icolumns : list index_column;
  iwhere : option predicate
}.

Inductive statement :=
| CreateTableIfNotExists (name : string) (cols : list column)
| AlterTableAddColumnsIfNotExists (table : string) (cols : list column)
| CreateIndexIfNotExists (ix : index).

Record schema := {
  tables : gmap string (list column);
  indexes : gmap string index
}.

Definition empty_schema : schema := {| tables := ∅; indexes := ∅ |}.

Definition has_column (cols : list column) (c : string) : bool :=
  bool_decide (c ∈ cname <$> cols).

(** A foreign key needs its target table and column. *)
Definition reference_ok (s : schema) (self : string) (cols : list column)
    (r : reference) : bool :=
  if bool_decide (ref_table r = self) then has_column cols (ref_column r)
  else match tables s !! ref_table r with
       | Some tcols => has_column tcols (ref_column r)
       | None => false
       end.

Definition references_ok (s : schema) (self : string) (known cols : list column) : bool :=
  forallb (λ c, match creferences c with
                | Some r => reference_ok s self known r
                | None => true
                end) cols.

(** [ADD COLUMN IF NOT EXISTS]: a column whose name is taken is skipped. *)
Definition add_column_if_not_exists (cols : list column) (c : column) : list column :=
  if has_column cols (cname c) then cols else cols ++ [c].

Definition predicate_ok (cols : list column) (p : predicate) : bool :=
  match p with IsNull c => has_column cols c end.

(** One statement; [None] is an error of the database (unknown table or
    column), which aborts the migration. *)
Definition exec_statement (st : statement) (s : schema) : option schema :=
  match st with
  | CreateTableIfNotExists name cols =>
      match tables s !! name with
      | Some _ => Some s
      | None =>
          if references_ok s name cols cols && bool_decide (NoDup (cname <$> cols))
          then Some {| tables := <[name := cols]> (tables s); indexes := indexes s |}
          else None
      end
  | AlterTableAddColumnsIfNotExists table cols =>
      match tables s !! table with
      | None => None
      | Some old =>
          let new := foldl add_column_if_not_exists old cols in
          if references_ok s table new cols
          then Some {| tables := <[table := new]> (tables s); indexes := indexes s |}
          else None
      end
  | CreateIndexIfNotExists ix =>
      match indexes s !! iname ix with
      | Some _ => Some s
      | None =>
          match tables s !! itable ix with
          | None => None
          | Some cols =>
              if forallb (λ ic, has_column cols (icol ic)) (icolumns ix)
                 && from_option (predicate_ok cols) true (iwhere ix)
              then Some {| tables := tables s; indexes := <[iname ix := ix]> (indexes s) |}
              else None
          end
      end
  end.

Fixpoint run (sts : list statement) (s : schema) : option schema :=
  match sts with
  | [] => Some s
  | st :: rest => exec_statement st s ≫= run rest
  end.

(** Shorthands for the column forms used in the files. *)
Definition col (n : string) (t : sqltype) : column :=
  {| cname := n; ctype := t; cnotnull := false; cdefault := None;
     cprimary := false; creferences := None |}.
Definition primary_key (c : column) : column :=
  {| cname := cname c; ctype := ctype c; cnotnull := true; cdefault := cdefault c;
     cprimary := true; creferences := creferences c |}.
Definition not_null (c : column) : column :=
  {| cname := cname c; ctype := ctype c; cnotnull := true; cdefault := cdefault c;
     cprimary := cprimary c; creferences := creferences c |}.
Definition with_default (d : default_expr) (c : column) : column :=
  {| cname := cname c; ctype := ctype c; cnotnull := cnotnull c; cdefault := Some d;
     cprimary := cprimary c; creferences := creferences c |}.
Definition references (t k : string) (cascade : bool) (c : column) : column :=
  {| cname := cname c; ctype := ctype c; cnotnull := cnotnull c; cdefault := cdefault c;
     cprimary := cprimary c;
     creferences := Some {| ref_table := t; ref_column := k; ref_cascade := cascade |} |}.
Definition on (c : string) : index_column := {| icol := c; idir := None |}.
Definition on_dir (c : string) (d : direction) : index_column :=
  {| icol := c; idir := Some d |}.

(** The initial migration: [jobs] and [job_events]. *)
Definition migration_init : list statement :=
  [ CreateTableIfNotExists "jobs"
      [ primary_key (col "id" UUID);
        not_null (col "kind" TEXT);
        with_default (DText "pending") (not_null (col "status" TEXT));
        with_default (DJson (JObject [])) (not_null (col "payload" JSONB));
        col "error" TEXT;
        with_default DNow (not_null (col "created_at" TIMESTAMPTZ));
        with_default DNow (not_null (col "updated_at" TIMESTAMPTZ)) ];
    CreateTableIfNotExists "job_events"
      [ primary_key (col "id" BIGSERIAL);
        references "jobs" "id" false (not_null (col "job_id" UUID));
        with_default DNow (not_null (col "ts" TIMESTAMPTZ));
        not_null (col "event" JSONB) ];
    CreateIndexIfNotExists
      {| iname := "idx_jobs_status_created"; itable := "jobs";
         icolumns := [on "status"; on "created_at"]; iwhere := None |};
    CreateIndexIfNotExists
      {| iname := "idx_job_events_job_id"; itable := "job_events";
         icolumns := [on "job_id"]; iwhere := None |} ].

(** Leases: [lease_owner], [lease_until], [attempts] and [idx_jobs_claim]. *)
Definition migration_leases : list statement :=
  [ AlterTableAddColumnsIfNotExists "jobs"
      [ col "lease_owner" TEXT;
        col "lease_until" TIMESTAMPTZ;
        with_default (DInt 0) (not_null (col "attempts" INT)) ];
    CreateIndexIfNotExists
      {| iname := "idx_jobs_claim"; itable := "jobs";
         icolumns := [on "status"; on "lease_until"; on "created_at"];
         iwhere := None |} ].

(** [20241222000002_concurrency.sql]. *)
Definition migration_concurrency : list statement :=
  [ CreateTableIfNotExists "dataset_locks"
      [ primary_key (col "dataset_id" TEXT);
        references "jobs" "id" true (not_null (col "job_id" UUID));
        not_null (col "lease_until" TIMESTAMPTZ) ];
    CreateIndexIfNotExists
      {| iname := "idx_dataset_locks_lease_until"; itable := "dataset_locks";
         icolumns := [on "lease_until"]; iwhere := None |};
    CreateIndexIfNotExists
      {| iname := "idx_jobs_status_attempts_created"; itable := "jobs";
         icolumns := [on "status"; on "attempts"; on "created_at"];
         iwhere := None |} ].

(** [20241222000003_priority.sql]. *)
Definition migration_priority : list statement :=
  [ AlterTableAddColumnsIfNotExists "jobs"
      [ with_default (DInt 0) (not_null (col "priority" INT)) ];
    CreateIndexIfNotExists
      {| iname := "idx_jobs_priority_status_created"; itable := "jobs";
         icolumns := [on "status"; on_dir "priority" DESC; on_dir "created_at" ASC];
         iwhere := None |} ].

(** [20241222000004_queues.sql]. *)
Definition migration_queues : list statement :=
  [ AlterTableAddColumnsIfNotExists "jobs"
      [ with_default (DText "default") (not_null (col "queue" TEXT)) ];
    CreateIndexIfNotExists
      {| iname := "idx_jobs_queue_status_priority_created"; itable := "jobs";
         icolumns := [on "queue"; on "status"; on_dir "priority" DESC; on "created_at"];
         iwhere := None |} ].

(** The webhook outbox. *)
Definition migration_outbox : list statement :=
  [ CreateTableIfNotExists "webhook_outbox"
      [ primary_key (col "id" UUID);
        references "jobs" "id" true (not_null (col "job_id" UUID));
        not_null (col "event" JSONB);
        with_default (DText "pending") (not_null (col "status" TEXT));
        with_default (DInt 0) (not_null (col "attempts" INT));
        with_default DNow (not_null (col "next_attempt_at" TIMESTAMPTZ));
        with_default DNow (not_null (col "created_at" TIMESTAMPTZ));
        col "delivered_at" TIMESTAMPTZ;
        col "locked_by" TEXT;
        col "locked_until" TIMESTAMPTZ;
        col "last_error" TEXT ];
    CreateIndexIfNotExists
      {| iname := "idx_webhook_outbox_due"; itable := "webhook_outbox";
         icolumns := [on "next_attempt_at"]; iwhere := Some (IsNull "delivered_at") |};
    CreateIndexIfNotExists
      {| iname := "idx_webhook_outbox_locked"; itable := "webhook_outbox";
         icolumns := [on "locked_until"]; iwhere := Some (IsNull "delivered_at") |} ].

(** The worker registry. *)
Definition migration_workers : list statement :=
  [ CreateTableIfNotExists "workers"
      [ primary_key (col "id" TEXT);
        not_null (col "hostname" TEXT);
        with_default DNow (not_null (col "last_heartbeat" TIMESTAMPTZ));
        with_default DNow (not_null (col "started_at" TIMESTAMPTZ)) ];
    CreateIndexIfNotExists
      {| iname := "idx_workers_last_heartbeat"; itable := "workers";
         icolumns := [on "last_heartbeat"]; iwhere := None |} ].

(** The migrations in the order of their timestamps. The three numbered
    files fix the end of the sequence; the lease migration has to come
    before [20241222000002], whose index names the [attempts] column. *)
Definition migrations : list statement :=
  migration_init ++ migration_leases ++ migration_concurrency
  ++ migration_priority ++ migration_queues
  ++ migration_outbox ++ migration_workers.

(** The direction an index column is sorted in: ascending unless stated. *)
Definition effective_direction (ic : index_column) : direction :=
  default ASC (idir ic).

(** The schema after all migrations ([empty_schema] if one fails, which
    [migrations_succeed] below excludes). *)
Definition final_schema : schema :=
  default empty_schema (run migrations empty_schema).

Definition table_columns (t : string) : list column :=
  default [] (tables final_schema !! t).

(** *** Rows: [INSERT], [UPDATE], [DELETE] *)

(** What a statement sees of its surroundings: the clock read by [NOW()]
    and the next value of the sequence behind a [BIGSERIAL] column. *)
Record env := { now : Z; nextval : Z }.

(** A row lists its columns in the order of the table. *)
Definition row := list (string * value).
Definition table := list row.

Fixpoint row_get (r : row) (c : string) : option value :=
  match r with
  | [] => None
  | (c', v) :: rest => if bool_decide (c' = c) then Some v else row_get rest c
  end.

Definition is_null (v : value) : bool :=
  match v with VNull => true | _ => false end.

Definition has_type (t : sqltype) (v : value) : bool :=
  match v, t with
  | VNull, _ => true
  | VUuid u, UUID => bool_decide (u < 2 ^ 128)%N
  | VText _, TEXT => true
  | VJson _, JSONB => true
  | VTime _, TIMESTAMPTZ => true
  | VInt z, INT => bool_decide (- 2 ^ 31 <= z < 2 ^ 31)
  | VInt z, BIGSERIAL => bool_decide (- 2 ^ 63 <= z < 2 ^ 63)
  | _, _ => false
  end.

Definition value_ok (c : column) (v : value) : bool :=
  has_type (ctype c) v && (negb (cnotnull c) || negb (is_null v)).

Definition eval_default (e : env) (d : default_expr) : value :=
  match d with
  | DText s => VText s
  | DJson j => VJson j
  | DNow => VTime (now e)
  | DInt z => VInt z
  end.

(** The value a column gets on [INSERT]: the supplied one, else the
    column's default, else the sequence for [BIGSERIAL], else [NULL]. *)
Definition column_value (e : env) (supplied : gmap string value) (c : column) : value :=
  match supplied !! cname c with
  | Some v => v
  | None =>
      match cdefault c, ctype c with
      | Some d, _ => eval_default e d
      | None, BIGSERIAL => VInt (nextval e)
      | None, _ => VNull
      end
  end.

Definition row_ok (cols : list column) (r : row) : bool :=
  bool_decide (r.*1 = cname <$> cols)
  && forallb (λ c, from_option (value_ok c) false (row_get r (cname c))) cols.

(** [INSERT INTO t (supplied columns) VALUES (..)]: fails on an unknown
    column, a value of the wrong type, or [NULL] in a [NOT NULL] column. *)
Definition build_row (cols : list column) (e : env) (supplied : gmap string value)
    : option row :=
  let r := (λ c, (cname c, column_value e supplied c)) <$> cols in
  if bool_decide (dom supplied ⊆ list_to_set (cname <$> cols)) && row_ok cols r
  then Some r else None.

Fixpoint json_eqb (a b : json) {struct a} : bool :=
  match a, b with
  | JNull, JNull => true
  | JBool x, JBool y => bool_decide (x = y)
  | JNumber m e, JNumber m' e' => bool_decide (m = m') && bool_decide (e = e')
  | JString s, JString s' => bool_decide (s = s')
  | JArray xs, JArray ys =>
      (fix go (xs ys : list json) {struct xs} : bool :=
         match xs, ys with
         | [], [] => true
         | x :: xs', y :: ys' => json_eqb x y && go xs' ys'
         | _, _ => false
         end) xs ys
  | JObject fs, JObject gs =>
      (fix go (fs gs : list (string * json)) {struct fs} : bool :=
         match fs, gs with
         | [], [] => true
         | (k, x) :: fs', (k', y) :: gs' =>
             bool_decide (k = k') && json_eqb x y && go fs' gs'
         | _, _ => false
         end) fs gs
  | _, _ => false
  end.

(** The [=] of SQL on stored values: [NULL] equals nothing, documents are
    compared as stored. *)
Definition sql_eq (a b : value) : bool :=
  match a, b with
  | VUuid x, VUuid y => bool_decide (x = y)
  | VText x, VText y => bool_decide (x = y)
  | VJson x, VJson y => json_eqb x y
  | VTime x, VTime y => bool_decide (x = y)
  | VInt x, VInt y => bool_decide (x = y)
  | _, _ => false
  end.

Definition key_columns (cols : list column) : list string :=
  cname <$> List.filter cprimary cols.

Definition row_key (cols : list column) (r : row) : list value :=
  (λ c, default VNull (row_get r c)) <$> key_columns cols.

Fixpoint key_eq (k1 k2 : list value) : bool :=
  match k1, k2 with
  | [], [] => true
  | a :: k1', b :: k2' => sql_eq a b && key_eq k1' k2'
  | _, _ => false
  end.

(** No two rows agree on the primary key. *)
Fixpoint keys_distinct (ks : list (list value)) : bool :=
  match ks with
  | [] => true
  | k :: rest => forallb (λ k', negb (key_eq k k')) rest && keys_distinct rest
  end.

Definition primary_key_ok (cols : list column) (t : table) : bool :=
  match key_columns cols with
  | [] => true
  | _ => keys_distinct (row_key cols <$> t)
  end.

(** [SET c = v, ..] on one row. *)
Definition set_column (r : row) (cv : string * value) : row :=
  (λ p : string * value, if bool_decide (p.1 = cv.1) then (p.1, cv.2) else p) <$> r.

Definition apply_set (sets : list (string * value)) (r : row) : row :=
  foldl set_column r sets.

Inductive dml :=
| Insert (supplied : gmap string value)
| Delete (where_ : row → bool)
| Update (where_ : row → bool) (sets : list (string * value)).

(** One statement on one table; [None] when the database rejects it
    (constraint violation), in which case the table is left as it was.
    Foreign keys are recorded in the schema but not enforced here. *)
Definition exec_dml (cols : list column) (e : env) (op : dml) (t : table)
    : option table :=
  match op with
  | Insert supplied =>
      r ← build_row cols e supplied;
      let t' := t ++ [r] in
      if primary_key_ok cols t' then Some t' else None
  | Delete w => Some (List.filter (λ r, negb (w r)) t)
  | Update w sets =>
      let t' := (λ r, if w r then apply_set sets r else r) <$> t in
      if forallb (λ cv : string * value, has_column cols cv.1) sets
         && forallb (row_ok cols) t' && primary_key_ok cols t'
      then Some t' else None
  end.



(** [c = 's'] for a text column [c]. *)
Definition text_is (c s : string) (r : row) : bool :=
  match row_get r c with
  | Some (VText s') => bool_decide (s' = s)
  | _ => false
  end.

(** *** Indexes *)

(** The key of an index: its columns with the direction each is sorted in. *)
Definition index_keys (ix : index) : list (string * direction) :=
  (λ ic, (icol ic, effective_direction ic)) <$> icolumns ix.

(** *** The webhook outbox *)


(** [delivered_at IS NOT NULL]. *)
Definition delivered_at_set (r : row) : bool :=
  match row_get r "delivered_at" with
  | Some v => negb (is_null v)
  | None => false
  end.





(** *** The jobs and the dataset locks together *)



(** [c = u] for a UUID column [c]. *)
Definition uuid_is (c : string) (u : N) (r : row) : bool :=
  match row_get r c with
  | Some (VUuid u') => bool_decide (u' = u)
  | _ => false
  end.






(** *** Sample statements *)

Definition e_at (t : Z) : env := {| now := t; nextval := 1 |}.

(** The job of the first end-to-end scenario, as [insert_job] stores it. *)
Definition submit_example : gmap string value :=
  {[ "id" := VUuid 42; "kind" := VText "train.llm"; "priority" := VInt 0;
     "payload" := VJson (JObject [("dataset_id", JString "D1")]) ]}.

(** A lifecycle event put in the outbox. *)
Definition enqueue_example : gmap string value :=
  {[ "id" := VUuid 2; "job_id" := VUuid 7;
     "event" := VJson (JObject [("type", JString "completed")]) ]}.



End Sql.

(** ** Part II. The operator UI *)

Module Js.

(** A string is a sequence of UTF-16 code units. *)
Definition jsstring := list N.

(** A string literal of the source (ASCII). *)
Definition lit (s : string) : jsstring :=
  (λ a, N_of_ascii a) <$> list_ascii_of_string s.
Global Arguments lit : simpl never.

(** Values as they come out of [JSON.parse] and the component state;
    numbers are IEEE 754 doubles. *)
Inductive jsval :=
| JsUndefined
| JsNull
| JsBool (b : bool)
| JsNum (x : float)
| JsStr (s : jsstring)
| JsArr (items : list jsval)
| JsObj (props : list (jsstring * jsval)).

Fixpoint lookup_prop (props : list (jsstring * jsval)) (k : jsstring) : jsval :=
  match props with
  | [] => JsUndefined
  | (k', v) :: rest => if bool_decide (k' = k) then v else lookup_prop rest k
  end.

(** [v.k] for a data property [k]; [None] is the [TypeError] of reading a
    property of [null] or [undefined]. Arrays and primitives carry none of
    the properties this UI reads ([jobs], [status]). *)
Definition get (v : jsval) (k : jsstring) : option jsval :=
  match v with
  | JsUndefined | JsNull => None
  | JsObj props => Some (lookup_prop props k)
  | _ => Some JsUndefined
  end.

(** [v?.k]. *)
Definition get_opt (v : jsval) (k : jsstring) : jsval :=
  default JsUndefined (get v k).

(** [a ?? b]. *)
Definition nullish (a b : jsval) : jsval :=
  match a with
  | JsUndefined | JsNull => b
  | _ => a
  end.

(** [v === "s"] for a string literal. *)
Definition strict_eq_str (v : jsval) (s : jsstring) : bool :=
  match v with
  | JsStr t => bool_decide (t = s)
  | _ => false
  end.

(** A number in a condition: [NaN], [+0] and [-0] are falsy. *)
Definition truthy_num (x : float) : bool :=
  negb (PrimFloat.is_nan x || PrimFloat.is_zero x).

(** [Boolean(v)]. *)
Definition truthy (v : jsval) : bool :=
  match v with
  | JsUndefined | JsNull => false
  | JsBool b => b
  | JsNum x => truthy_num x
  | JsStr s => negb (bool_decide (s = []))
  | JsArr _ | JsObj _ => true
  end.

(** [s.includes(sub)]. *)
Fixpoint includes (s sub : jsstring) : bool :=
  bool_decide (sub `prefix_of` s)
  || match s with
     | [] => false
     | _ :: s' => includes s' sub
     end.

(** The code points [trim] strips: WhiteSpace and LineTerminator of
    ECMAScript (TAB, LF, VT, FF, CR, SP, NBSP, the Unicode space
    separators, LS, PS and the byte order mark). *)
Definition is_whitespace (c : N) : bool :=
  bool_decide (c ∈ [9; 10; 11; 12; 13; 32; 160; 5760; 8192; 8193; 8194; 8195;
                    8196; 8197; 8198; 8199; 8200; 8201; 8202; 8232; 8233;
                    8239; 8287; 12288; 65279]%N).

Fixpoint trim_start (s : jsstring) : jsstring :=
  match s with
  | c :: s' => if is_whitespace c then trim_start s' else s
  | [] => []
  end.

Definition trim_end (s : jsstring) : jsstring := reverse (trim_start (reverse s)).

(** [s.trim()]. *)
Definition trim (s : jsstring) : jsstring := trim_end (trim_start s).

(** *** ViewCreate.jsx *)

Definition isTerminal (status : jsval) : bool :=
  strict_eq_str status (lit "done")
  || strict_eq_str status (lit "failed")
  || strict_eq_str status (lit "cancelled").

(** *** JobTable.jsx *)

Definition badgeClass (status : jsval) : jsstring :=
  if strict_eq_str status (lit "running") then lit "badge running"
  else if strict_eq_str status (lit "pending") then lit "badge pending"
  else if strict_eq_str status (lit "done") then lit "badge done"
  else if strict_eq_str status (lit "failed") then lit "badge failed"
  else if strict_eq_str status (lit "cancelled") then lit "badge cancelled"
  else lit "badge".

(** The [value]s of the status filter's options. *)
Definition status_options : list jsstring :=
  lit <$> ["all"; "pending"; "running"; "done"; "failed"; "cancelled"].

(** [Array.isArray(data) ? data : (data?.jobs ?? [])]. *)
Definition rows (data : jsval) : jsval :=
  match data with
  | JsArr _ => data
  | _ => nullish (get_opt data (lit "jobs")) (JsArr [])
  end.

(** The [disabled] attributes of the two buttons of a job. *)
Record actions := { cancel_disabled : bool; retry_disabled : bool }.

Definition actions_for (status : jsval) : actions :=
  {| cancel_disabled :=
       negb (strict_eq_str status (lit "running"))
       && negb (strict_eq_str status (lit "pending"));
     retry_disabled :=
       negb (strict_eq_str status (lit "failed"))
       && negb (strict_eq_str status (lit "cancelled")) |}.

(** The action cell of the table row of [j]; [None] when reading
    [j.status] throws. *)
Definition table_actions (j : jsval) : option actions :=
  status ← get j (lit "status"); Some (actions_for status).

(** *** JobDrawer.jsx *)

(** The [drawerActions] block; it is rendered only under [data && ..]. *)
Definition drawer_actions (data : jsval) : option actions :=
  if truthy data then status ← get data (lit "status"); Some (actions_for status)
  else None.

(** A job as the jobs list shows it. *)
Definition running_job : jsval :=
  JsObj [(lit "id", JsStr (lit "72e7241b")); (lit "kind", JsStr (lit "train.llm"));
         (lit "status", JsStr (lit "running"))].

(** Modelled from the spec: the status domain of a job (3, Data model);
    the [jobs] table stores [status] as unconstrained [TEXT]. *)
Definition job_statuses : list jsstring :=
  lit <$> ["pending"; "running"; "paused"; "done"; "failed"; "cancelled"].

(** Modelled from the spec: the preconditions of [cancel] and [retry] in
    the table of lifecycle operations (4.5); the lifecycle controller is
    not among the sources. *)
Definition cancel_precondition (status : jsval) : Prop :=
  status = JsStr (lit "pending") ∨ status = JsStr (lit "running").
Definition retry_precondition (status : jsval) : Prop :=
  status = JsStr (lit "failed") ∨ status = JsStr (lit "cancelled").

End Js.

(** *** The API client ([http]) *)

Module Api.
Import Js.

(** What [fetch] resolves to: the status line, the [content-type] header
    ([None] when absent) and the body as text ([None] when reading the
    body fails). *)
Record response := {
  status : N;
  statusText : jsstring;
  content_type : option jsstring;
  body : option jsstring
}.

(** [res.ok]: the status is in the range 200-299. *)
Definition ok (res : response) : bool :=
  bool_decide (200 ≤ status res ≤ 299)%N.

(** What an [async] function settles to. *)
Inductive settled (A : Type) :=
| Resolved (a : A)
| ThrewError (message : jsstring)   (* [throw new Error(message)] *)
| BodyFailed.                       (* [res.json()] or [res.text()] rejected *)
Arguments Resolved {A} a.
Arguments ThrewError {A} message.
Arguments BodyFailed {A}.

Inductive payload := Json (v : jsval) | Text (t : jsstring).

(** [`${n}`] for a non-negative integer. *)
Definition to_decimal (n : N) : jsstring :=
  lit (NilZero.string_of_uint (N.to_uint n)).

Section Http.
(** [JSON.parse]; [None] is its [SyntaxError]. *)
Variable JSON_parse : jsstring → option jsval.

Definition error_message (res : response) : jsstring :=
  let text := default [] (body res) in   (* [.catch(() => "")] *)
  to_decimal (status res) ++ lit " " ++ statusText res
  ++ (if bool_decide (text = []) then [] else lit ": " ++ text).

Definition http (res : response) : settled payload :=
  if negb (ok res) then ThrewError (error_message res)
  else
    let ct := default [] (content_type res) in   (* [get(..) || ""] *)
    if includes ct (lit "application/json")
    then match body res ≫= JSON_parse with
         | Some v => Resolved (Json v)
         | None => BodyFailed
         end
    else match body res with
         | Some t => Resolved (Text t)
         | None => BodyFailed
         end.
End Http.

End Api.

(** *** CreateJobModal *)

Module CreateJobModal.
Import Js.

(** [priority] starts as the number [0] and becomes the text of the input. *)
Inductive priority_input := PNum (x : float) | PStr (s : jsstring).

Record state := {
  kind : jsstring;
  queue : jsstring;
  priority : priority_input;
  payloadText : jsstring;
  submitting : bool
}.

(** The body handed to [api.postJob]. *)
Record job := {
  job_kind : jsstring;
  job_queue : jsstring;
  job_priority : float;
  job_payload : jsval
}.

(** What [safeParseJson] returns: [{ok: true, value}] or [{ok: false, error}]. *)
Inductive parsed := ParsedOk (value : jsval) | ParsedError.

Definition parsed_ok (p : parsed) : bool :=
  match p with ParsedOk _ => true | ParsedError => false end.

(** A caught exception: [String(e.message || e)] shows its message, or its
    name when the message is empty. *)
Record js_error := { err_name : jsstring; err_message : jsstring }.

Definition shown (e : js_error) : jsstring :=
  if bool_decide (err_message e = []) then err_name e else err_message e.

(** What [submit] does, in order. *)
Inductive effect :=
| SetErr (msg : jsstring)
| SetSubmitting (b : bool)
| PostJob (j : job)
| OnCreated (created : jsval)
| OnClose.

Section Modal.
(** [JSON.parse]; [None] is its [SyntaxError]. *)
Variable JSON_parse : jsstring → option jsval.
(** [Number(s)] on a string. *)
Variable StringToNumber : jsstring → float.
(** The answer of [api.postJob]. *)
Variable postJob : job → js_error + jsval.

Definition safeParseJson (text : jsstring) : parsed :=
  match JSON_parse text with
  | Some v => ParsedOk v
  | None => ParsedError
  end.

Definition Number (p : priority_input) : float :=
  match p with
  | PNum x => x
  | PStr s => StringToNumber s
  end.

(** [Number(priority) || 0]. *)
Definition number_or_zero (p : priority_input) : float :=
  let n := Number p in
  if truthy_num n then n else 0%float.

Definition canSubmit (st : state) : bool :=
  negb (bool_decide (trim (kind st) = []))
  && negb (bool_decide (trim (queue st) = []))
  && parsed_ok (safeParseJson (payloadText st))
  && negb (submitting st).

Definition submit (st : state) : list effect :=
  SetErr (lit "")
  :: match safeParseJson (payloadText st) with
     | ParsedError => [SetErr (lit "Payload must be valid JSON.")]
     | ParsedOk value =>
         let j := {| job_kind := trim (kind st);
                     job_queue := trim (queue st);
                     job_priority := number_or_zero (priority st);
                     job_payload := value |} in
         [SetSubmitting true; PostJob j]
         ++ match postJob j with
            | inr created => [OnCreated created; OnClose]
            | inl e => [SetErr (shown e)]
            end
         ++ [SetSubmitting false]
     end.

(** A click on "Create Job": the button is [disabled] unless
    [canSubmit], and a disabled button does not run its handler. *)
Definition click (st : state) : list effect :=
  if canSubmit st then submit st else [].

(** The string has no whitespace at either end. *)
Definition trimmed (s : jsstring) : Prop :=
  (∀ c, head s = Some c → is_whitespace c = false)
  ∧ (∀ c, last s = Some c → is_whitespace c = false).
End Modal.

(** Sample forms: one with a blank kind, one filled in. *)
Definition blank_kind : state :=
  {| kind := lit "  "; queue := lit "gpu_queue"; priority := PStr (lit "abc");
     payloadText := lit "{}"; submitting := false |}.

Definition filled : state :=
  {| kind := lit " train "; queue := lit "gpu_queue"; priority := PStr (lit "abc");
     payloadText := lit "{}"; submitting := false |}.

End CreateJobModal.

(** ** Part III. The smoke test of the dataset lock *)

Module SmokeTest.

(** A value of [System.Net.HttpStatusCode]: the number and the name it
    prints as. *)
Record http_status := { code : N; name : string }.

(** What [Invoke-RestMethod] does: it returns the parsed body of a 2xx
    answer, and throws on any other outcome; the exception carries the
    status code when there was a response, and prints as [message]. *)
Inductive rest (A : Type) :=
| RestOk (body : A)
| RestThrows (response : option http_status) (message : string).
Arguments RestOk {A} body.
Arguments RestThrows {A} response message.

(** The fields the script reads of the answers, as they print. *)
Record created := { job_id : string }.
Record job_view := { phase : string; epoch : string; step : string; error : string }.

Inductive line := Host (s : string) | Error (s : string).

Definition lower (a : ascii) : ascii :=
  let n := N_of_ascii a in
  if bool_decide (65 ≤ n ≤ 90)%N then ascii_of_N (n + 32) else a.

(** [-eq] and [-ne] on strings ignore case. *)
Definition eq_ci (a b : string) : bool :=
  bool_decide (lower <$> list_ascii_of_string a = lower <$> list_ascii_of_string b).

(** [$_.Exception.Response.StatusCode -eq Conflict]. *)
Definition is_conflict (response : option http_status) : bool :=
  match response with
  | Some st => bool_decide (code st = 409%N)
  | None => false
  end.

Definition status_name (response : option http_status) : string :=
  match response with
  | Some st => name st
  | None => ""
  end.

(** Step 3: poll until the phase is [Ready] or [Failed]. The answers of
    the server are given in advance; [None] when they run out before the
    loop ends. *)
Fixpoint poll (status : string) (last_error : string) (answers : list (rest job_view))
    (log : list line) : option (list line * Z) :=
  if negb (eq_ci status "Ready") && negb (eq_ci status "Failed") then
    match answers with
    | [] => None
    | RestOk j :: more =>
        poll (phase j) (error j) more
          (log ++ [Host ("Phase: " +:+ phase j +:+ " (Epoch: " +:+ epoch j
                         +:+ ", Step: " +:+ step j +:+ ")")])
    | RestThrows _ msg :: _ =>
        Some (log ++ [Error ("Failed to poll job: " +:+ msg)], 1)
    end
  else if eq_ci status "Failed"
  then Some (log ++ [Error ("Job Failed: " +:+ last_error)], 1)
  else Some (log ++ [Host "Job Completed Successfully!"], 0).

(** The script: what it prints and its exit code, given the answers to
    its two [POST]s of the same [$body] and to its [GET]s. *)
Definition lock_test (post1 post2 : rest created) (gets : list (rest job_view))
    : option (list line * Z) :=
  match post1 with
  | RestThrows _ msg =>
      Some ([Host "Creating Job..."; Error ("Failed to create job: " +:+ msg)], 1)
  | RestOk resp =>
      let log1 := [Host "Creating Job...";
                   Host ("Job Created: " +:+ job_id resp);
                   Host "Testing Lock (Concurrent Job)..."] in
      match post2 with
      | RestOk _ =>
          Some (log1 ++ [Error "ERROR: Should have failed with 409 Conflict, but got success"], 1)
      | RestThrows response _ =>
          if is_conflict response
          then poll "Pending" "" gets
                 (log1 ++ [Host "SUCCESS: Lock enforced (409 Conflict)";
                           Host "Polling Job Status..."])
          else Some (log1 ++ [Error ("ERROR: Expected 409, got " +:+ status_name response)], 1)
      end
  end.


(** Sample answers. *)
Definition first_job : created := {| job_id := "5f0c" |}.
Definition conflict : http_status := {| code := 409; name := "Conflict" |}.
Definition training : job_view :=
  {| phase := "Training"; epoch := "0"; step := "12"; error := "" |}.
Definition ready : job_view :=
  {| phase := "Ready"; epoch := "1"; step := "40"; error := "" |}.

End SmokeTest.

(** ** Part III-b. More of the schema, of the UI and of the smoke test *)

Module SqlMore.
Import Sql.

(** [s'] has everything [s] has: each table of [s] with its columns in
    front, and each index of [s]. *)
Definition schema_le (s s' : schema) : Prop :=
  (∀ t cols, tables s !! t = Some cols →
     ∃ extra, tables s' !! t = Some (cols ++ extra))
  ∧ indexes s ⊆ indexes s'.






(** A submit that names its status as [NULL]. *)
Definition null_status_insert : gmap string value :=
  <["status" := VNull]> submit_example.

End SqlMore.

Module Views.
Import Js.

(** [v == null]. *)
Definition is_nullish (v : jsval) : bool :=
  match v with
  | JsUndefined | JsNull => true
  | _ => false
  end.

(** [[a, b, ..].join(sep)]. *)
Fixpoint join (sep : jsstring) (parts : list jsstring) : jsstring :=
  match parts with
  | [] => []
  | [p] => p
  | p :: rest => p ++ sep ++ join sep rest
  end.

(** [`${n}`] for an integer. *)
Definition decimal (z : Z) : jsstring :=
  lit (NilZero.string_of_int (Z.to_int z)).

(** *** JobTable.jsx *)

Section Components.
(** [String(v)] for a number, an array or an object. *)
Variable ToStringRest : jsval → jsstring.
(** [s.toLowerCase()]. *)
Variable toLowerCase : jsstring → jsstring.
(** [new Date(v).getTime()]: a whole number of milliseconds, or [None]
    for [NaN]. Times are taken below [2 ^ 52] in magnitude (some
    140,000 years around 1970): their differences are exact in double
    precision, and [Math.floor(x / 1000)] and [Math.floor(x / 60)] are
    the integer quotients. *)
Variable getTime : jsval → option Z.
(** [Date.now()]. *)
Variable now : Z.

(** [String(v)]. *)
Definition to_string (v : jsval) : jsstring :=
  match v with
  | JsUndefined => lit "undefined"
  | JsNull => lit "null"
  | JsBool true => lit "true"
  | JsBool false => lit "false"
  | JsStr s => s
  | _ => ToStringRest v
  end.

Definition norm (v : jsval) : jsstring :=
  trim (toLowerCase (to_string (nullish v (JsStr [])))).

(** [j.dataset_id ?? j.payload?.dataset_id ?? j.payload?.datasetId];
    [None] is the [TypeError] of reading a property of [null]. *)
Definition jobDatasetId (j : jsval) : option jsval :=
  top ← get j (lit "dataset_id");
  let payload := get_opt j (lit "payload") in
  Some (nullish (nullish top (get_opt payload (lit "dataset_id")))
                (get_opt payload (lit "datasetId"))).

Definition timeAgo (iso : jsval) : jsstring :=
  if negb (truthy iso) then []
  else match getTime iso with
       | None => lit "NaNh ago"
       | Some t =>
           let ms := now - t in
           let s := Z.max 0 (ms `div` 1000) in
           if bool_decide (s < 60)%Z then decimal s ++ lit "s ago"
           else let m := s `div` 60 in
                if bool_decide (m < 60)%Z then decimal m ++ lit "m ago"
                else decimal (m `div` 60) ++ lit "h ago"
       end.

(** The three tests of the filter callback, each read only if the ones
    before let the job through; [None] is a [TypeError]. *)
Definition status_passes (status : jsstring) (j : jsval) : option bool :=
  if bool_decide (status = lit "all") then Some true
  else st ← get j (lit "status"); Some (bool_decide (norm st = status)).

Definition queue_passes (queue : jsstring) (j : jsval) : option bool :=
  if bool_decide (queue = lit "all") then Some true
  else q ← get j (lit "queue"); Some (bool_decide (norm q = queue)).

Definition hay (j : jsval) : option jsstring :=
  id ← get j (lit "id");
  kind ← get j (lit "kind");
  queue ← get j (lit "queue");
  status ← get j (lit "status");
  dataset ← jobDatasetId j;
  Some (join (lit " ") (norm <$> [id; kind; queue; status; dataset])).

Definition search_matches (qq : jsstring) (j : jsval) : option bool :=
  if bool_decide (qq = []) then Some true
  else h ← hay j; Some (includes h qq).

Definition keep (status queue qq : jsstring) (j : jsval) : option bool :=
  s ← status_passes status j;
  if negb s then Some false
  else q ← queue_passes queue j;
       if negb q then Some false else search_matches qq j.

(** [items.filter(p)] for a callback that may throw. *)
Fixpoint filter_rows (p : jsval → option bool) (items : list jsval)
    : option (list jsval) :=
  match items with
  | [] => Some []
  | j :: rest =>
      p j ≫= λ b : bool,
      kept ← filter_rows p rest; Some (if b then j :: kept else kept)
  end.

(** [filtered], from the response and the three inputs of the filter
    bar; [None] when [rows.filter] throws. *)
Definition filtered (data : jsval) (q status queue : jsstring)
    : option (list jsval) :=
  match rows data with
  | JsArr items => filter_rows (keep status queue (norm (JsStr q))) items
  | _ => None
  end.

(** *** JobDrawer.jsx *)

Definition eventTs (ev : jsval) : option jsval :=
  timestamp ← get ev (lit "timestamp");
  Some (nullish (nullish (nullish (nullish timestamp (get_opt ev (lit "ts")))
                                  (get_opt ev (lit "time")))
                         (get_opt ev (lit "created_at")))
                (get_opt ev (lit "at"))).

Definition eventType (ev : jsval) : option jsval :=
  type ← get ev (lit "type");
  Some (nullish (nullish (nullish type (get_opt ev (lit "event_type")))
                         (get_opt ev (lit "name")))
                (JsStr (lit "event"))).

(** [new Date(eventTs(a) ?? 0).getTime() || 0]: the key the events are
    compared by. *)
Definition sort_key (ev : jsval) : option Z :=
  ts ← eventTs ev; Some (default 0 (getTime (nullish ts (JsNum 0)))).

(** [Array.prototype.sort] is stable; with a comparator that subtracts
    keys it orders by key and keeps the order of equal keys. *)
Fixpoint insert_by (k : Z) (x : jsval) (l : list (Z * jsval)) : list (Z * jsval) :=
  match l with
  | [] => [(k, x)]
  | (k', y) :: l' => if bool_decide (k ≤ k')%Z then (k, x) :: l else (k', y) :: insert_by k x l'
  end.

Fixpoint sort_by (l : list (Z * jsval)) : list (Z * jsval) :=
  match l with
  | [] => []
  | (k, x) :: l' => insert_by k x (sort_by l')
  end.

(** The keys of all events; [None] when the comparator throws on one. *)
Definition keyed (items : list jsval) : option (list (Z * jsval)) :=
  mapM (λ ev, k ← sort_key ev; Some (k, ev)) items.

(** [v === undefined]. *)
Definition is_undefined (v : jsval) : bool :=
  match v with
  | JsUndefined => true
  | _ => false
  end.

(** [[...events].sort(cmp)]: [Array.prototype.sort] puts the [undefined]
    elements last without calling the comparator on them and compares
    the others; fewer than two of those need no comparison. *)
Definition normalizeEvents (events : jsval) : option (list jsval) :=
  match events with
  | JsArr items =>
      let defined := List.filter (λ v, negb (is_undefined v)) items in
      let rest := List.filter is_undefined items in
      if bool_decide (length defined < 2)%nat then Some (defined ++ rest)
      else l ← keyed defined; Some ((sort_by l).*2 ++ rest)
  | _ => Some []
  end.

End Components.

(** [toggle(i)] on the set of expanded events. *)
Definition toggle (i : nat) (expanded : gset nat) : gset nat :=
  if bool_decide (i ∈ expanded) then expanded ∖ {[i]} else expanded ∪ {[i]}.

(** Sample data: lower case on ASCII text, a list of two jobs, and three
    events. *)
Definition ascii_lower (s : jsstring) : jsstring :=
  (λ c, if bool_decide (65 ≤ c ≤ 90)%N then (c + 32)%N else c) <$> s.

Definition pending_job : jsval :=
  JsObj [(lit "id", JsStr (lit "9c1d03aa")); (lit "kind", JsStr (lit "kb.create"));
         (lit "queue", JsStr (lit "default")); (lit "status", JsStr (lit "pending"));
         (lit "payload", JsObj [(lit "dataset_id", JsStr (lit "D7"))])].

Definition two_jobs : jsval := JsObj [(lit "jobs", JsArr [running_job; pending_job])].

Definition event_at (type : string) (ts : Z) : jsval :=
  JsObj [(lit "type", JsStr (lit type)); (lit "ts", JsStr (decimal ts))].

(** A clock for the samples: the [ts] field holds the milliseconds. *)
Definition sample_time (v : jsval) : option Z :=
  match v with
  | JsStr s => if bool_decide (s = decimal 30) then Some 30
               else if bool_decide (s = decimal 10) then Some 10
               else None
  | _ => None
  end.

Definition three_events : list jsval :=
  [event_at "claimed" 30; event_at "submitted" 10; event_at "progress" 30].

End Views.

(** *** ViewCreate.jsx *)

Module ViewCreate.
Import Js Views CreateJobModal.

(** What one event gives as a result, in the order the loop body tests
    its fields. *)
Definition event_result (ev : jsval) : option jsval :=
  if negb (is_nullish (get_opt ev (lit "result"))) then Some (get_opt ev (lit "result"))
  else if negb (is_nullish (get_opt ev (lit "output"))) then Some (get_opt ev (lit "output"))
  else if negb (is_nullish (get_opt ev (lit "text"))) then Some (get_opt ev (lit "text"))
  else if negb (is_nullish (get_opt ev (lit "image_url")))
  then Some (JsObj [(lit "image_url", get_opt ev (lit "image_url"))])
  else if negb (is_nullish (get_opt ev (lit "url")))
  then Some (JsObj [(lit "url", get_opt ev (lit "url"))])
  else None.

(** The [for] loop from the last event down to the first. *)
Fixpoint last_event_result (newest_first : list jsval) : jsval :=
  match newest_first with
  | [] => JsNull
  | ev :: older =>
      match event_result ev with
      | Some r => r
      | None => last_event_result older
      end
  end.

Definition extractResult (job : jsval) : jsval :=
  if negb (is_nullish (get_opt job (lit "result"))) then get_opt job (lit "result")
  else if negb (is_nullish (get_opt job (lit "output"))) then get_opt job (lit "output")
  else if negb (is_nullish (get_opt (get_opt job (lit "payload")) (lit "result")))
  then get_opt (get_opt job (lit "payload")) (lit "result")
  else
    let evs := match get_opt job (lit "events") with
               | JsArr items => items
               | _ => []
               end in
    last_event_result (reverse evs).

(** The state [submitJob] writes. *)
Record screen := {
  mode : jsstring;
  error : jsstring;
  result : jsval;
  jobId : jsval;
  jobStatus : jsval
}.

Definition finish (s : screen) (err : jsstring) : screen :=
  {| mode := lit "result"; error := err; result := result s;
     jobId := jobId s; jobStatus := jobStatus s |}.

(** The [while (true)] loop, on the answers of [api.getJob] in order;
    [None] when they run out while the job is not terminal. *)
Fixpoint poll_job (answers : list (js_error + jsval)) (s : screen) : option screen :=
  match answers with
  | [] => None
  | inl e :: _ => Some (finish s (err_message e))
  | inr j :: more =>
      let st := nullish (get_opt j (lit "status")) (JsStr (lit "pending")) in
      let r := extractResult j in
      let s1 := {| mode := mode s; error := error s;
                   result := if is_nullish r then result s else r;
                   jobId := jobId s; jobStatus := st |} in
      if isTerminal st then
        Some (finish s1 (if strict_eq_str st (lit "failed") then lit "Job failed"
                         else if strict_eq_str st (lit "cancelled") then lit "Job cancelled"
                         else error s1))
      else poll_job more s1
  end.

(** [submitJob(job)], given the answer of [api.postJob] and those of
    [api.getJob]. *)
Definition submitJob (s0 : screen) (post : js_error + jsval)
    (answers : list (js_error + jsval)) : option screen :=
  let s := {| mode := lit "run"; error := []; result := JsNull;
              jobId := jobId s0; jobStatus := jobStatus s0 |} in
  match post with
  | inl e => Some (finish s (err_message e))
  | inr created =>
      let id := nullish (get_opt created (lit "id")) (get_opt created (lit "job_id")) in
      if negb (truthy id) then Some (finish s (lit "No job ID returned"))
      else poll_job answers
             {| mode := mode s; error := error s; result := result s;
                jobId := id; jobStatus := jobStatus s |}
  end.

(** [j?.status ?? "pending"]. *)
Definition status_of (j : jsval) : jsval :=
  nullish (get_opt j (lit "status")) (JsStr (lit "pending")).

(** The result on screen after polling [jobs] in order: the latest one
    that [extractResult] finds, else what was there. *)
Definition latest_result (r0 : jsval) (jobs : list jsval) : jsval :=
  foldl (λ r j, if is_nullish (extractResult j) then r else extractResult j) r0 jobs.

(** The message for a terminal status. *)
Definition terminal_error (st : jsval) : jsstring :=
  if strict_eq_str st (lit "failed") then lit "Job failed"
  else if strict_eq_str st (lit "cancelled") then lit "Job cancelled"
  else [].

(** Sample data: a job whose result is in its second event, a running
    job and a finished one. *)
Definition job_with_events : jsval :=
  JsObj [(lit "status", JsStr (lit "done"));
         (lit "events", JsArr [JsObj [(lit "type", JsStr (lit "claimed"))];
                               JsObj [(lit "text", JsStr (lit "hello"))];
                               JsObj [(lit "type", JsStr (lit "completed"))]])].

Definition job_running : jsval := JsObj [(lit "status", JsStr (lit "running"))].

Definition blank_screen : screen :=
  {| mode := lit "text"; error := []; result := JsNull; jobId := JsNull;
     jobStatus := JsNull |}.

Definition created_job : jsval := JsObj [(lit "job_id", JsStr (lit "5f0c"))].

End ViewCreate.

(** *** The polling hook *)

Module Hooks.
Import Js CreateJobModal.

(** What [usePoll] returns. *)
Record poll_state := {
  data : jsval;
  error : option js_error;
  loading : bool
}.

Definition initial : poll_state :=
  {| data := JsNull; error := None; loading := true |}.

(** One [tick]: whether the tab is hidden when it starts, whether the
    effect is still alive when [fn] settles, and what [fn] settles to. *)
Record tick_input := {
  hidden : bool;
  alive : bool;
  outcome : js_error + jsval
}.

Definition tick (s : poll_state) (i : tick_input) : poll_state :=
  if hidden i then s
  else if alive i then
    match outcome i with
    | inr v => {| data := v; error := None; loading := false |}
    | inl e => {| data := data s; error := Some e; loading := false |}
    end
  else s.

(** The state after the given ticks, in the order in which they settle. *)
Definition run_ticks (ticks : list tick_input) : poll_state :=
  foldl tick initial ticks.

(** What [JobTable] and [SchedulerHeader] make of the state: the loading
    line, the error line, or the contents. *)
Inductive shown_as := Loading | Failed (message : jsstring) | Contents (d : jsval).

Definition view (s : poll_state) : shown_as :=
  if loading s then Loading
  else match error s with
       | Some e => Failed (shown e)
       | None => Contents (data s)
       end.

(** A tick that has an effect. *)
Definition effective (i : tick_input) : bool := negb (hidden i) && alive i.

(** The value a tick stores, if it stores one. *)
Definition success_value (i : tick_input) : option jsval :=
  if effective i then match outcome i with inr v => Some v | inl _ => None end
  else None.

End Hooks.

(** *** The polling loop of the smoke test *)

Module SmokeMore.
Import SmokeTest.

(** The condition of the [while] loop. *)
Definition running (status : string) : bool :=
  negb (eq_ci status "Ready") && negb (eq_ci status "Failed").

End SmokeMore.

(** ** Part IV. Facts about the schema *)

Section SchemaFacts.
Import Sql.

Lemma migrations_succeed : run migrations empty_schema = Some final_schema.
Proof. vm_compute. reflexivity. Qed.

Lemma jobs_columns :
  table_columns "jobs" =
  [ primary_key (col "id" UUID);
    not_null (col "kind" TEXT);
    with_default (DText "pending") (not_null (col "status" TEXT));
    with_default (DJson (JObject [])) (not_null (col "payload" JSONB));
    col "error" TEXT;
    with_default DNow (not_null (col "created_at" TIMESTAMPTZ));
    with_default DNow (not_null (col "updated_at" TIMESTAMPTZ));
    col "lease_owner" TEXT;
    col "lease_until" TIMESTAMPTZ;
    with_default (DInt 0) (not_null (col "attempts" INT));
    with_default (DInt 0) (not_null (col "priority" INT));
    with_default (DText "default") (not_null (col "queue" TEXT)) ].
Proof. vm_compute. reflexivity. Qed.



Lemma jobs_columns_nodup : NoDup (cname <$> table_columns "jobs").
Proof. rewrite jobs_columns. apply (bool_decide_unpack _). by vm_compute. Qed.


(** C5. After the migrations the schema has the three indexes: on [jobs]
    the key (queue, status, priority DESC, created_at ASC) and a key that
    starts with (status, lease_until); on [webhook_outbox] the key
    (next_attempt_at) restricted to [delivered_at IS NULL]. *)
Theorem schema_defines_required_indexes :
  run migrations empty_schema = Some final_schema
  ∧ (∃ ix, indexes final_schema !! "idx_jobs_queue_status_priority_created" = Some ix
       ∧ itable ix = "jobs" ∧ iwhere ix = None
       ∧ index_keys ix
         = [("queue", ASC); ("status", ASC); ("priority", DESC); ("created_at", ASC)])
  ∧ (∃ ix, indexes final_schema !! "idx_jobs_claim" = Some ix
       ∧ itable ix = "jobs" ∧ iwhere ix = None
       ∧ take 2 (index_keys ix) = [("status", ASC); ("lease_until", ASC)])
  ∧ (∃ ix, indexes final_schema !! "idx_webhook_outbox_due" = Some ix
       ∧ itable ix = "webhook_outbox" ∧ iwhere ix = Some (IsNull "delivered_at")
       ∧ index_keys ix = [("next_attempt_at", ASC)]).
Proof.
  split; [exact migrations_succeed|].
  repeat split; eexists; (split; [vm_compute; reflexivity|]); by vm_compute.
Qed.

(** *** Inserted rows *)

Lemma build_row_get cols e supplied r c :
  build_row cols e supplied = Some r → c ∈ cols → NoDup (cname <$> cols) →
  row_get r (cname c) = Some (column_value e supplied c).
Proof.
  unfold build_row. case_match eqn:Hchecks; [|done]. intros [= <-] Hin Hnd.
  clear Hchecks. induction cols as [|c' cols IH]; [by apply elem_of_nil in Hin|].
  cbn. apply NoDup_cons in Hnd as [Hni Hnd].
  apply elem_of_cons in Hin as [->|Hin].
  - by rewrite bool_decide_eq_true_2.
  - rewrite bool_decide_eq_false_2; [by apply IH|].
    intros Heq. apply Hni. rewrite Heq. by apply list_elem_of_fmap_2.
Qed.

Lemma build_row_ok cols e supplied r :
  build_row cols e supplied = Some r → row_ok cols r = true.
Proof.
  unfold build_row. case_match eqn:H; [|done]. intros [= <-].
  by apply andb_true_iff in H as [_ ?].
Qed.

Lemma insert_appends cols e supplied t t' :
  exec_dml cols e (Insert supplied) t = Some t' →
  ∃ r, build_row cols e supplied = Some r ∧ t' = t ++ [r].
Proof.
  cbn. destruct (build_row cols e supplied) as [r|]; cbn; [|done].
  case_match; [|done]. intros [= <-]. by exists r.
Qed.

(** C8. A row inserted into [jobs] without a status and an attempt count
    starts with status ['pending'] and [attempts = 0]; its queue is the
    one supplied, and ['default'] when none is. *)
Theorem fresh_job_row_defaults (e : env) (supplied : gmap string value) (t t' : table) :
  exec_dml (table_columns "jobs") e (Insert supplied) t = Some t' →
  supplied !! "status" = None → supplied !! "attempts" = None →
  ∃ r, t' = t ++ [r]
    ∧ row_get r "status" = Some (VText "pending")
    ∧ row_get r "attempts" = Some (VInt 0)
    ∧ row_get r "queue" = Some (default (VText "default") (supplied !! "queue")).
Proof.
  intros (r & Hr & ->)%insert_appends Hs Ha. exists r. split; [done|].
  pose proof jobs_columns_nodup as Hnd.
  assert (Hget : ∀ c, c ∈ table_columns "jobs" →
            row_get r (cname c) = Some (column_value e supplied c))
    by (intros c Hc; by eapply build_row_get).
  rewrite jobs_columns in Hget.
  split; [|split].
  - specialize (Hget (with_default (DText "pending") (not_null (col "status" TEXT)))).
    unfold column_value in Hget. cbn in Hget. rewrite Hs in Hget. apply Hget. set_solver.
  - specialize (Hget (with_default (DInt 0) (not_null (col "attempts" INT)))).
    unfold column_value in Hget. cbn in Hget. rewrite Ha in Hget. apply Hget. set_solver.
  - specialize (Hget (with_default (DText "default") (not_null (col "queue" TEXT)))).
    unfold column_value in Hget. cbn in Hget. rewrite Hget by set_solver.
    by destruct (supplied !! "queue").
Qed.

Lemma fresh_job_row_defaults_witness :
  ∃ r, default [] (exec_dml (table_columns "jobs") (e_at 5) (Insert submit_example) [])
       = [] ++ [r]
    ∧ row_get r "status" = Some (VText "pending")
    ∧ row_get r "attempts" = Some (VInt 0)
    ∧ row_get r "queue" = Some (default (VText "default") (submit_example !! "queue")).
Proof.
  apply (fresh_job_row_defaults (e_at 5) submit_example []); vm_compute; reflexivity.
Defined.

(** *** The outbox *)





(** The table has no constraint between the two columns: it takes the
    update of a fresh row to ['delivered'] that leaves [delivered_at] as
    it is. *)
Example outbox_update_without_stamp :
  ∃ r, exec_dml (table_columns "webhook_outbox") (e_at 9)
         (Update (uuid_is "id" 2) [("status", VText "delivered")])
         (default [] (exec_dml (table_columns "webhook_outbox") (e_at 5)
                        (Insert enqueue_example) []))
       = Some [r]
     ∧ text_is "status" "delivered" r = true ∧ delivered_at_set r = false.
Proof. eexists. split; [vm_compute; reflexivity|]. by vm_compute. Qed.

End SchemaFacts.

(** *** Primary keys *)

Section TableFacts.
Import Sql.







Lemma row_ok_get cols r c :
  row_ok cols r = true → c ∈ cols →
  ∃ v, row_get r (cname c) = Some v ∧ value_ok c v = true.
Proof.
  unfold row_ok. rewrite andb_true_iff, forallb_forall. intros [_ H] Hc.
  specialize (H c (proj1 (list_elem_of_In _ _) Hc)).
  destruct (row_get r (cname c)) as [v|]; [|done]. by exists v.
Qed.

(** *** Dataset locks *)










End TableFacts.

(** ** Part V. Facts about the operator UI *)

Section UiFacts.
Import Js.

Lemma strict_eq_str_spec v s : strict_eq_str v s = true ↔ v = JsStr s.
Proof.
  destruct v; cbn; try (split; [done|by intros [=]]).
  rewrite bool_decide_eq_true. split; [by intros ->|by intros [=]].
Qed.

Lemma isTerminal_spec v :
  isTerminal v = true
  ↔ v = JsStr (lit "done") ∨ v = JsStr (lit "failed") ∨ v = JsStr (lit "cancelled").
Proof.
  unfold isTerminal. rewrite !orb_true_iff, !strict_eq_str_spec. tauto.
Qed.

Lemma badgeClass_distinguishes v :
  badgeClass v ≠ lit "badge" →
  v = JsStr (lit "running") ∨ v = JsStr (lit "pending") ∨ v = JsStr (lit "done")
  ∨ v = JsStr (lit "failed") ∨ v = JsStr (lit "cancelled").
Proof.
  unfold badgeClass. rewrite <-!strict_eq_str_spec.
  repeat (case_match; [tauto|]). done.
Qed.

Lemma in_job_statuses s :
  s ∈ ["pending"; "running"; "paused"; "done"; "failed"; "cancelled"] →
  JsStr (lit s) ∈ JsStr <$> job_statuses.
Proof. intros H. unfold job_statuses. by do 2 apply list_elem_of_fmap_2. Qed.

Lemma cancel_enabled_iff status :
  cancel_disabled (actions_for status) = false ↔ cancel_precondition status.
Proof.
  unfold cancel_precondition. cbn.
  rewrite andb_false_iff, !negb_false_iff, !strict_eq_str_spec. tauto.
Qed.

Lemma retry_enabled_iff status :
  retry_disabled (actions_for status) = false ↔ retry_precondition status.
Proof.
  unfold retry_precondition. cbn.
  rewrite andb_false_iff, !negb_false_iff, !strict_eq_str_spec. tauto.
Qed.

(** C4. [isTerminal] holds of exactly the strings [done], [failed] and
    [cancelled]; these are the terminal ones among the six statuses; and
    every status the UI tells apart (by [isTerminal], by a badge of its
    own, by an enabled button, by an option of the status filter) is one
    of the six. *)
Theorem status_domain_and_terminal (v : jsval) :
  (isTerminal v = true
   ↔ v = JsStr (lit "done") ∨ v = JsStr (lit "failed") ∨ v = JsStr (lit "cancelled"))
  ∧ List.filter (λ s, isTerminal (JsStr s)) job_statuses
    = lit <$> ["done"; "failed"; "cancelled"]
  ∧ (length job_statuses = 6%nat ∧ NoDup job_statuses)
  ∧ (isTerminal v = true → v ∈ JsStr <$> job_statuses)
  ∧ (badgeClass v ≠ lit "badge" → v ∈ JsStr <$> job_statuses)
  ∧ (cancel_disabled (actions_for v) = false ∨ retry_disabled (actions_for v) = false →
     v ∈ JsStr <$> job_statuses)
  ∧ (∀ s, s ∈ status_options → s ≠ lit "all" → s ∈ job_statuses).
Proof.
  split; [apply isTerminal_spec|].
  split; [by vm_compute|].
  split; [split; [done|apply (bool_decide_unpack _); by vm_compute]|].
  split; [|split; [|split]].
  - intros [->| [->| ->]]%isTerminal_spec; apply in_job_statuses; set_solver.
  - intros [->| [->| [->| [->| ->]]]]%badgeClass_distinguishes;
      apply in_job_statuses; set_solver.
  - rewrite cancel_enabled_iff, retry_enabled_iff.
    intros [[->| ->]|[->| ->]]; apply in_job_statuses; set_solver.
  - intros s Hs Hall. unfold status_options in Hs.
    apply list_elem_of_fmap in Hs as (x & -> & Hx).
    unfold job_statuses. apply list_elem_of_fmap_2.
    set_unfold. destruct Hx as [->|Hx]; [done|]. tauto.
Qed.

(** C6. For a job [j] shown in the table and in the drawer, Cancel is
    enabled exactly when [j.status] is [pending] or [running], and Retry
    exactly when it is [failed] or [cancelled]. *)
Theorem job_actions_match_lifecycle (j status : jsval) :
  get j (lit "status") = Some status →
  table_actions j = Some (actions_for status)
  ∧ (truthy j = true → drawer_actions j = Some (actions_for status))
  ∧ (cancel_disabled (actions_for status) = false ↔ cancel_precondition status)
  ∧ (retry_disabled (actions_for status) = false ↔ retry_precondition status).
Proof.
  intros Hs. unfold table_actions, drawer_actions. rewrite Hs.
  split; [done|]. split; [by intros ->|].
  split; [apply cancel_enabled_iff|apply retry_enabled_iff].
Qed.

Lemma job_actions_match_lifecycle_witness :
  table_actions running_job = Some {| cancel_disabled := false; retry_disabled := true |}
  ∧ drawer_actions running_job = Some {| cancel_disabled := false; retry_disabled := true |}.
Proof.
  destruct (job_actions_match_lifecycle running_job (JsStr (lit "running")))
    as (Ht & Hd & _); [reflexivity|].
  split; [exact Ht|exact (Hd eq_refl)].
Defined.

Lemma lookup_prop_absent props k : k ∉ props.*1 → lookup_prop props k = JsUndefined.
Proof.
  induction props as [|[k' v] props IH]; cbn; [done|].
  rewrite not_elem_of_cons. intros [Hne Hni].
  rewrite bool_decide_eq_false_2 by done. by apply IH.
Qed.

(** C7. [JobTable] takes the same rows [A] from the bare array [A] and
    from an object whose [jobs] field is [A], and no rows from a response
    that is neither an array nor an object with a [jobs] field. *)
Theorem rows_of_either_shape (A : list jsval) (props : list (jsstring * jsval))
    (data : jsval) :
  rows (JsArr A) = JsArr A
  ∧ rows (JsObj [(lit "jobs", JsArr A)]) = JsArr A
  ∧ (lookup_prop props (lit "jobs") = JsArr A → rows (JsObj props) = JsArr A)
  ∧ ((∀ items, data ≠ JsArr items) →
     (∀ fields, data = JsObj fields → lit "jobs" ∉ fields.*1) →
     rows data = JsArr []).
Proof.
  split; [done|]. split; [done|]. split.
  - intros H. cbn. unfold get_opt. cbn. by rewrite H.
  - intros Harr Hobj. destruct data; try done.
    + by destruct (Harr items).
    + cbn. unfold get_opt. cbn. by rewrite lookup_prop_absent by by apply Hobj.
Qed.

Example isTerminal_paused : isTerminal (JsStr (lit "paused")) = false.
Proof. reflexivity. Qed.

Example isTerminal_undefined : isTerminal JsUndefined = false.
Proof. reflexivity. Qed.

Example rows_of_null : rows JsNull = JsArr [].
Proof. reflexivity. Qed.

Example rows_of_wrapper :
  rows (JsObj [(lit "total", JsNum 1); (lit "jobs", JsArr [running_job])])
  = JsArr [running_job].
Proof. reflexivity. Qed.

End UiFacts.

(** *** The API client *)

Section HttpFacts.
Import Js Api.
Variable JSON_parse : jsstring → option jsval.


End HttpFacts.

Example http_not_found :
  Api.http (λ _, None)
    {| Api.status := 404; Api.statusText := Js.lit "Not Found";
       Api.content_type := Some (Js.lit "text/plain");
       Api.body := Some (Js.lit "no such job") |}
  = Api.ThrewError (Js.lit "404 Not Found: no such job").
Proof. vm_compute. reflexivity. Qed.

Example http_json_body :
  Api.http (λ _, Some (Js.JsArr []))
    {| Api.status := 200; Api.statusText := Js.lit "OK";
       Api.content_type := Some (Js.lit "application/json; charset=utf-8");
       Api.body := Some (Js.lit "[]") |}
  = Api.Resolved (Api.Json (Js.JsArr [])).
Proof. vm_compute. reflexivity. Qed.

(** *** CreateJobModal *)

Section TrimFacts.
Import Js.

Lemma trim_start_suffix s : trim_start s `suffix_of` s.
Proof.
  induction s as [|c s IH]; cbn; [done|].
  destruct (is_whitespace c); [by apply suffix_cons_r|done].
Qed.

Lemma head_trim_start s c : head (trim_start s) = Some c → is_whitespace c = false.
Proof.
  induction s as [|c' s IH]; cbn; [done|].
  destruct (is_whitespace c') eqn:Hc; [done|]. cbn. by intros [= <-].
Qed.

Lemma trim_end_prefix s : trim_end s `prefix_of` s.
Proof.
  unfold trim_end. apply prefix_suffix_reverse. rewrite reverse_involutive.
  apply trim_start_suffix.
Qed.

Lemma last_trim_end s c : last (trim_end s) = Some c → is_whitespace c = false.
Proof. unfold trim_end. rewrite last_reverse. apply head_trim_start. Qed.

Lemma head_prefix_of (s t : jsstring) c :
  s `prefix_of` t → head s = Some c → head t = Some c.
Proof. intros [k ->]. by destruct s. Qed.

Lemma trim_trimmed s : CreateJobModal.trimmed (trim s).
Proof.
  split; intros c Hc.
  - apply (head_trim_start s). eapply head_prefix_of; [apply trim_end_prefix|done].
  - by apply (last_trim_end (trim_start s)).
Qed.

Lemma truthy_num_not_nan x : truthy_num x = true → PrimFloat.is_nan x = false.
Proof.
  unfold truthy_num. rewrite negb_true_iff, orb_false_iff. tauto.
Qed.

Example trim_padded : trim (lit "  train.llm ") = lit "train.llm".
Proof. vm_compute. reflexivity. Qed.

Example trim_blank : trim ([9; 160; 32; 8233; 65279]%N) = [].
Proof. vm_compute. reflexivity. Qed.

End TrimFacts.

Section ModalFacts.
Import Js CreateJobModal.
Variable JSON_parse : jsstring → option jsval.
Variable StringToNumber : jsstring → float.
Variable postJob : job → js_error + jsval.

Lemma number_or_zero_not_nan p :
  PrimFloat.is_nan (number_or_zero StringToNumber p) = false.
Proof.
  unfold number_or_zero.
  destruct (truthy_num (Number StringToNumber p)) eqn:H; [|reflexivity].
  by apply truthy_num_not_nan.
Qed.

Lemma number_or_zero_of_nan p :
  PrimFloat.is_nan (Number StringToNumber p) = true →
  number_or_zero StringToNumber p = 0%float.
Proof. intros H. unfold number_or_zero, truthy_num. by rewrite H. Qed.

Lemma posted_by_submit st j :
  PostJob j ∈ submit JSON_parse StringToNumber postJob st →
  JSON_parse (payloadText st) = Some (job_payload j)
  ∧ j = {| job_kind := trim (kind st); job_queue := trim (queue st);
           job_priority := number_or_zero StringToNumber (priority st);
           job_payload := job_payload j |}.
Proof.
  unfold submit, safeParseJson.
  destruct (JSON_parse (payloadText st)) as [v|]; [|set_solver].
  destruct (postJob _); set_solver.
Qed.

(** C10. When the payload text is not JSON, [submit] sets the error
    message and posts nothing. A job that [submit] posts carries the
    parsed payload, the trimmed kind and queue, and a priority that is a
    number other than NaN, [0] when the input is not numeric. A job
    posted by a click on the button, which [canSubmit] guards, has a
    kind and a queue that are not empty. *)
Theorem submit_posts_well_formed (st : state) (j : job) :
  (JSON_parse (payloadText st) = None →
   submit JSON_parse StringToNumber postJob st
   = [SetErr (lit ""); SetErr (lit "Payload must be valid JSON.")]
   ∧ click JSON_parse StringToNumber postJob st = [])
  ∧ (PostJob j ∈ submit JSON_parse StringToNumber postJob st →
     JSON_parse (payloadText st) = Some (job_payload j)
     ∧ job_kind j = trim (kind st) ∧ trimmed (job_kind j)
     ∧ job_queue j = trim (queue st) ∧ trimmed (job_queue j)
     ∧ job_priority j = number_or_zero StringToNumber (priority st)
     ∧ PrimFloat.is_nan (job_priority j) = false
     ∧ (PrimFloat.is_nan (Number StringToNumber (priority st)) = true →
        job_priority j = 0%float))
  ∧ (PostJob j ∈ click JSON_parse StringToNumber postJob st →
     PostJob j ∈ submit JSON_parse StringToNumber postJob st
     ∧ job_kind j ≠ [] ∧ job_queue j ≠ []).
Proof.
  split; [|split].
  - intros H. unfold click, canSubmit, submit, safeParseJson.
    rewrite H. cbn. by rewrite !andb_false_r.
  - intros [Hp ->]%posted_by_submit. cbn.
    split; [done|]. split; [done|]. split; [apply trim_trimmed|].
    split; [done|]. split; [apply trim_trimmed|]. split; [done|].
    split; [apply number_or_zero_not_nan|apply number_or_zero_of_nan].
  - unfold click. destruct (canSubmit _ st) eqn:Hc; [|set_solver].
    intros H. split; [done|].
    apply posted_by_submit in H as [_ ->]. cbn.
    unfold canSubmit in Hc. rewrite !andb_true_iff, !negb_true_iff in Hc.
    destruct Hc as [[[Hk Hq] _] _].
    by apply bool_decide_eq_false in Hk, Hq.
Qed.

End ModalFacts.

Section ModalExamples.
Import Js CreateJobModal.

(** The button is disabled on a blank kind, and a click posts nothing;
    the guard is [canSubmit], not [submit], which would post the empty
    kind. *)
Example click_on_blank_kind :
  click (λ _, Some (JsObj [])) (λ _, PrimFloat.nan) (λ _, inr JsNull) blank_kind = []
  ∧ PostJob {| job_kind := []; job_queue := lit "gpu_queue";
               job_priority := 0%float; job_payload := JsObj [] |}
    ∈ submit (λ _, Some (JsObj [])) (λ _, PrimFloat.nan) (λ _, inr JsNull) blank_kind.
Proof. split; [reflexivity|]. vm_compute. do 2 right. by left. Qed.

Example click_on_filled :
  click (λ _, Some (JsObj [])) (λ _, PrimFloat.nan) (λ _, inr JsNull) filled
  = [ SetErr []; SetSubmitting true;
      PostJob {| job_kind := lit "train"; job_queue := lit "gpu_queue";
                 job_priority := 0%float; job_payload := JsObj [] |};
      OnCreated JsNull; OnClose; SetSubmitting false ].
Proof. vm_compute. reflexivity. Qed.

Example click_on_bad_json :
  click (λ _, None) (λ _, PrimFloat.nan) (λ _, inr JsNull) filled = []
  ∧ submit (λ _, None) (λ _, PrimFloat.nan) (λ _, inr JsNull) filled
    = [SetErr (lit ""); SetErr (lit "Payload must be valid JSON.")].
Proof. split; reflexivity. Qed.

End ModalExamples.

(** ** Part VI. Facts about the smoke test *)

Section SmokeTestFacts.
Import SmokeTest.





End SmokeTestFacts.

(** ** Part VII. More facts about the schema *)

Section MigrationFacts.
Import Sql SqlMore.

Lemma schema_le_refl s : schema_le s s.
Proof. split; [|done]. intros t cols H. exists []. by rewrite app_nil_r. Qed.

Lemma schema_le_trans s1 s2 s3 : schema_le s1 s2 → schema_le s2 s3 → schema_le s1 s3.
Proof.
  intros [Ht1 Hi1] [Ht2 Hi2]. split; [|by etrans].
  intros t cols H. apply Ht1 in H as [e1 H]. apply Ht2 in H as [e2 H].
  exists (e1 ++ e2). by rewrite app_assoc.
Qed.

Lemma add_columns_extends old cols :
  ∃ extra, foldl add_column_if_not_exists old cols = old ++ extra.
Proof.
  revert old. induction cols as [|c cols IH]; intros old; cbn.
  - exists []. by rewrite app_nil_r.
  - unfold add_column_if_not_exists at 2. destruct (has_column old (cname c)).
    + apply IH.
    + destruct (IH (old ++ [c])) as [extra ->]. exists (c :: extra).
      by rewrite <-app_assoc.
Qed.

Lemma exec_statement_grows st s s' :
  exec_statement st s = Some s' → schema_le s s'.
Proof.
  destruct st as [name cols|table cols|ix]; cbn.
  - destruct (tables s !! name) eqn:Hn; [intros [= <-]; apply schema_le_refl|].
    case_match; [|done]. intros [= <-]. split; [|done]. cbn.
    intros t c Ht. exists []. rewrite app_nil_r.
    rewrite lookup_insert_ne; [done|]. intros ->. congruence.
  - destruct (tables s !! table) as [old|] eqn:Hn; [|done].
    case_match; [|done]. intros [= <-]. split; [|done]. cbn.
    intros t c Ht. destruct (decide (t = table)) as [->|Hne].
    + rewrite lookup_insert_eq. rewrite Hn in Ht. injection Ht as <-.
      destruct (add_columns_extends old cols) as [extra ->]. by exists extra.
    + rewrite lookup_insert_ne by done. exists []. by rewrite app_nil_r.
  - destruct (indexes s !! iname ix) eqn:Hn; [intros [= <-]; apply schema_le_refl|].
    destruct (tables s !! itable ix); [|done]. case_match; [|done].
    intros [= <-]. split; cbn.
    + intros t c Ht. exists []. by rewrite app_nil_r.
    + by apply insert_subseteq.
Qed.

Lemma run_grows sts s s' : run sts s = Some s' → schema_le s s'.
Proof.
  revert s. induction sts as [|st sts IH]; intros s; cbn.
  - intros [= <-]. apply schema_le_refl.
  - destruct (exec_statement st s) as [s1|] eqn:H1; cbn; [|done].
    intros H. eapply schema_le_trans; [by eapply exec_statement_grows|by apply IH].
Qed.



Lemma has_column_app cols extra c :
  has_column cols c = true → has_column (cols ++ extra) c = true.
Proof.
  unfold has_column. rewrite !bool_decide_eq_true, fmap_app, elem_of_app. tauto.
Qed.

Lemma add_columns_noop old cols :
  (∀ c, c ∈ cols → has_column old (cname c) = true) →
  foldl add_column_if_not_exists old cols = old.
Proof.
  induction cols as [|c cols IH]; cbn; [done|]. intros H.
  unfold add_column_if_not_exists at 2. rewrite H by by left.
  apply IH. intros c' Hc'. apply H. by right.
Qed.

Lemma add_columns_has old cols c :
  c ∈ cols → has_column (foldl add_column_if_not_exists old cols) (cname c) = true.
Proof.
  revert old. induction cols as [|c' cols IH]; intros old; [by intros ?%elem_of_nil|].
  intros [->|Hin]%elem_of_cons; cbn; [|by apply IH].
  destruct (add_columns_extends (add_column_if_not_exists old c') cols) as [extra ->].
  apply has_column_app. unfold add_column_if_not_exists.
  destruct (has_column old (cname c')) eqn:H; [done|].
  unfold has_column. rewrite bool_decide_eq_true, fmap_app, elem_of_app. right.
  cbn. by left.
Qed.

Lemma reference_ok_grows s s2 self known known2 r :
  schema_le s s2 →
  (∃ extra, tables s2 !! self = Some known2 ∧ known2 = known ++ extra) →
  reference_ok s self known r = true → reference_ok s2 self known2 r = true.
Proof.
  intros [Ht _] (extra & Hself & ->). unfold reference_ok.
  case_bool_decide; [by apply has_column_app|].
  destruct (tables s !! ref_table r) as [tcols|] eqn:Hr; [|done].
  apply Ht in Hr as [e ->]. by apply has_column_app.
Qed.

(** A statement that ran is a no-op on every later schema. *)
Lemma exec_statement_again st s s1 s2 :
  exec_statement st s = Some s1 → schema_le s1 s2 → exec_statement st s2 = Some s2.
Proof.
  intros Hex Hle. pose proof (exec_statement_grows _ _ _ Hex) as Hg.
  destruct Hle as [Ht Hi].
  destruct st as [name cols|table cols|ix]; cbn in *.
  - destruct (tables s !! name) as [c0|] eqn:Hn.
    + injection Hex as <-. apply Ht in Hn as [e ->]. done.
    + case_match; [|done]. injection Hex as <-. cbn in Ht.
      destruct (Ht name cols) as [e ->]; [by rewrite lookup_insert_eq|done].
  - destruct (tables s !! table) as [old|] eqn:Hn; [|done].
    case_match eqn:Hrefs; [|done]. injection Hex as <-. cbn in Ht, Hi.
    destruct (Ht table (foldl add_column_if_not_exists old cols)) as [e He];
      [by rewrite lookup_insert_eq|].
    rewrite He.
    assert (Hnoop : foldl add_column_if_not_exists
                      (foldl add_column_if_not_exists old cols ++ e) cols
                    = foldl add_column_if_not_exists old cols ++ e).
    { apply add_columns_noop. intros c Hc. apply has_column_app.
      by apply add_columns_has. }
    rewrite Hnoop.
    assert (Hr2 : references_ok s2 table
                    (foldl add_column_if_not_exists old cols ++ e) cols = true).
    { unfold references_ok in *. rewrite forallb_forall in Hrefs |- *.
      intros c Hc. specialize (Hrefs c Hc). destruct (creferences c) as [r|]; [|done].
      eapply reference_ok_grows; [| |exact Hrefs].
      - eapply schema_le_trans; [exact Hg|]. split; done.
      - by exists e. }
    rewrite Hr2. f_equal. destruct s2 as [t2 i2]. cbn in *. f_equal.
    by apply insert_id.
  - destruct (indexes s !! iname ix) as [i0|] eqn:Hn.
    + injection Hex as <-.
      by rewrite (lookup_weaken _ _ _ _ Hn Hi).
    + destruct (tables s !! itable ix); [|done]. case_match; [|done].
      injection Hex as <-. cbn in Hi.
      rewrite (lookup_weaken (<[iname ix:=ix]> (indexes s)) (indexes s2) (iname ix) ix);
        [done| |done].
      by rewrite lookup_insert_eq.
Qed.

Lemma run_again sts s s' s2 :
  run sts s = Some s' → schema_le s' s2 → run sts s2 = Some s2.
Proof.
  revert s. induction sts as [|st sts IH]; intros s; cbn; [done|].
  destruct (exec_statement st s) as [s1|] eqn:H1; cbn; [|done].
  intros Hrun Hle.
  rewrite (exec_statement_again st s s1 s2 H1); cbn; [by eapply IH|].
  eapply schema_le_trans; [by eapply run_grows|done].
Qed.

Lemma run_app sts1 sts2 s : run (sts1 ++ sts2) s = run sts1 s ≫= run sts2.
Proof.
  revert s. induction sts1 as [|st sts1 IH]; intros s; cbn; [done|].
  destruct (exec_statement st s); cbn; [apply IH|done].
Qed.

(** X2. Migrations can be run again: on the schema they produced, the
    same statements succeed and change nothing, so running them twice
    gives what running them once gives. *)
Theorem migrations_rerun (sts : list statement) (s s' : schema) :
  run sts s = Some s' → run sts s' = Some s' ∧ run (sts ++ sts) s = Some s'.
Proof.
  intros H.
  assert (H2 : run sts s' = Some s') by (eapply run_again; [done|apply schema_le_refl]).
  split; [done|]. by rewrite run_app, H.
Qed.

Lemma migrations_rerun_witness :
  run migrations final_schema = Some final_schema
  ∧ run (migrations ++ migrations) empty_schema = Some final_schema.
Proof. apply (migrations_rerun migrations). vm_compute. reflexivity. Defined.

End MigrationFacts.

Section LockFacts.
Import Sql SqlMore.













Lemma final_tables_nodup t : NoDup (cname <$> table_columns t).
Proof.
  unfold table_columns.
  assert (H : map_Forall (λ _ cols, NoDup (cname <$> cols)) (tables final_schema)).
  { apply (bool_decide_unpack _). by vm_compute. }
  destruct (tables final_schema !! t) as [cols|] eqn:Ht; cbn; [|constructor].
  by apply (H t).
Qed.

Lemma elem_of_default_lookup {A} (m : gmap string (list A)) (t : string) (c : A) :
  c ∈ default [] (m !! t) → ∃ cols, m !! t = Some cols ∧ c ∈ cols.
Proof. destruct (m !! t); cbn; [eauto|by intros ?%elem_of_nil]. Qed.




Lemma defaulted_not_null t c :
  c ∈ table_columns t → is_Some (cdefault c) → cnotnull c = true.
Proof.
  unfold table_columns.
  assert (H : map_Forall
                (λ _ cols, Forall (λ c, is_Some (cdefault c) → cnotnull c = true) cols)
                (tables final_schema)).
  { apply (bool_decide_unpack _). by vm_compute. }
  intros (cols & Ht & Hc)%elem_of_default_lookup.
  eapply Forall_forall in Hc; [|exact (H t cols Ht)]. exact Hc.
Qed.

(** X6. Every column of the schema that has a default is [NOT NULL].
    So a [NULL] given for such a column is not replaced by the default,
    the [INSERT] fails; and a row that was inserted holds a value other
    than [NULL] in it. This covers [status], [payload], [attempts],
    [priority], [queue] and the timestamps of [jobs]. *)
Theorem defaulted_columns_never_null
    (t : string) (e : env) (supplied : gmap string value) (c : column) :
  c ∈ table_columns t → is_Some (cdefault c) →
  cnotnull c = true
  ∧ (supplied !! cname c = Some VNull →
     build_row (table_columns t) e supplied = None)
  ∧ (∀ r, build_row (table_columns t) e supplied = Some r →
       ∃ v, row_get r (cname c) = Some v ∧ is_null v = false).
Proof.
  intros Hc Hd. pose proof (defaulted_not_null t c Hc Hd) as Hnn.
  assert (Hrow : ∀ r, build_row (table_columns t) e supplied = Some r →
            ∃ v, row_get r (cname c) = Some v ∧ is_null v = false
                 ∧ v = column_value e supplied c).
  { intros r Hb.
    pose proof (build_row_get _ _ _ _ _ Hb Hc (final_tables_nodup t)) as Hget.
    pose proof (build_row_ok _ _ _ _ Hb) as Hok.
    destruct (row_ok_get _ _ _ Hok Hc) as (v & Hv & Hvok).
    exists v. split; [done|]. split; [|congruence].
    unfold value_ok in Hvok. rewrite Hnn in Hvok. cbn in Hvok.
    apply andb_true_iff in Hvok as [_ Hvok]. by apply negb_true_iff. }
  split; [done|]. split.
  - intros Hs. destruct (build_row _ e supplied) as [r|] eqn:Hb; [|done].
    destruct (Hrow r eq_refl) as (v & _ & Hnull & ->).
    unfold column_value in Hnull. by rewrite Hs in Hnull.
  - intros r Hb. destruct (Hrow r Hb) as (v & Hv & Hnull & _). eauto.
Qed.

Lemma defaulted_columns_never_null_witness :
  let c := with_default (DText "pending") (not_null (col "status" TEXT)) in
  cnotnull c = true
  ∧ (null_status_insert !! cname c = Some VNull →
     build_row (table_columns "jobs") (e_at 3) null_status_insert = None)
  ∧ (∀ r, build_row (table_columns "jobs") (e_at 3) null_status_insert = Some r →
       ∃ v, row_get r (cname c) = Some v ∧ is_null v = false).
Proof.
  apply (defaulted_columns_never_null "jobs" (e_at 3) null_status_insert
           (with_default (DText "pending") (not_null (col "status" TEXT)))).
  - rewrite jobs_columns. do 2 right. left.
  - by eexists.
Defined.

Example null_status_is_rejected :
  build_row (table_columns "jobs") (e_at 3) null_status_insert = None.
Proof. vm_compute. reflexivity. Qed.

End LockFacts.

(** ** Part VIII. More facts about the operator UI *)

Section StringFacts.
Import Js Views.

Lemma includes_spec s sub : includes s sub = true ↔ ∃ a b, s = a ++ sub ++ b.
Proof.
  induction s as [|c s IH]; cbn.
  - rewrite orb_false_r, bool_decide_eq_true. split.
    + intros [k Hk]. exists [], k. done.
    + intros (a & b & H). symmetry in H.
      apply app_eq_nil in H as [-> [-> ->]%app_eq_nil]. done.
  - rewrite orb_true_iff, bool_decide_eq_true, IH. split.
    + intros [[k Hk]|(a & b & ->)]; [by exists [], k|by exists (c :: a), b].
    + intros (a & b & H). destruct a as [|c' a].
      * left. by exists b.
      * right. injection H as -> ->. by exists a, b.
Qed.

Lemma includes_within a s b sub :
  includes s sub = true → includes (a ++ s ++ b) sub = true.
Proof.
  rewrite !includes_spec. intros (x & y & ->). exists (a ++ x), (y ++ b).
  by rewrite <-!app_assoc.
Qed.

Lemma join_member sep parts p :
  p ∈ parts → ∃ a b, join sep parts = a ++ p ++ b.
Proof.
  induction parts as [|p0 parts IH]; [by intros ?%elem_of_nil|].
  intros [->|Hin]%elem_of_cons.
  - destruct parts as [|p1 parts]; [exists [], []; cbn; by rewrite app_nil_r|].
    exists [], (sep ++ join sep (p1 :: parts)). done.
  - destruct (IH Hin) as (a & b & Hj).
    destruct parts as [|p1 parts]; [by apply elem_of_nil in Hin|].
    exists (p0 ++ sep ++ a), b. cbn [join]. cbn [join] in Hj. rewrite Hj.
    by rewrite <-!app_assoc.
Qed.

End StringFacts.

Section JobTableFacts.
Import Js Views.
Variable ToStringRest : jsval → jsstring.
Variable toLowerCase : jsstring → jsstring.

Lemma filter_rows_spec p items kept :
  filter_rows p items = Some kept →
  kept `sublist_of` items ∧ ∀ j, j ∈ kept ↔ j ∈ items ∧ p j = Some true.
Proof.
  revert kept. induction items as [|j0 items IH]; intros kept; cbn.
  - intros [= <-]. split; [done|]. intros j. set_solver.
  - destruct (p j0) as [b|] eqn:Hp; cbn; [|done].
    destruct (filter_rows p items) as [kept0|]; cbn; [|done].
    intros [= <-]. destruct (IH kept0 eq_refl) as [Hsub Hin].
    destruct b.
    + split; [by apply sublist_skip|]. intros j. rewrite !elem_of_cons, Hin.
      split; [intros [->|]; tauto|]. intros [[->|?] ?]; tauto.
    + split; [by apply sublist_cons|]. intros j. rewrite elem_of_cons, Hin.
      split; [tauto|]. intros [[->|?] ?]; [congruence|tauto].
Qed.

(** X7. The rows [JobTable] shows are rows of the response, in their
    order, never more than there are; when a status (or a queue) is
    selected, every row shown has that status (queue) once normalised. *)
Theorem filtered_shows_matching_rows (data : jsval) (q status queue : jsstring)
    (kept : list jsval) :
  filtered ToStringRest toLowerCase data q status queue = Some kept →
  ∃ items, rows data = JsArr items
    ∧ kept `sublist_of` items
    ∧ (length kept ≤ length items)%nat
    ∧ ∀ j, j ∈ kept →
        (status ≠ lit "all" →
         ∃ st, get j (lit "status") = Some st
               ∧ norm ToStringRest toLowerCase st = status)
        ∧ (queue ≠ lit "all" →
           ∃ qu, get j (lit "queue") = Some qu
                 ∧ norm ToStringRest toLowerCase qu = queue).
Proof.
  unfold filtered. destruct (rows data) as [| | | | |items|] eqn:Hrows; try done.
  intros [Hsub Hin]%filter_rows_spec. exists items. split; [done|]. split; [done|].
  split; [by apply sublist_length|].
  intros j [_ Hk]%Hin. unfold keep in Hk.
  destruct (status_passes _ _ status j) as [[]|] eqn:Hs; cbn in Hk; try done.
  destruct (queue_passes _ _ queue j) as [[]|] eqn:Hq; cbn in Hk; try done.
  split; intros Hne.
  - unfold status_passes in Hs. rewrite bool_decide_eq_false_2 in Hs by done.
    destruct (get j (lit "status")) as [st|]; cbn in Hs; [|done].
    injection Hs as Hs%bool_decide_eq_true. eauto.
  - unfold queue_passes in Hq. rewrite bool_decide_eq_false_2 in Hq by done.
    destruct (get j (lit "queue")) as [qu|]; cbn in Hq; [|done].
    injection Hq as Hq%bool_decide_eq_true. eauto.
Qed.



(** X9. The search finds a job by each searched field: when the
    normalised search text occurs in the normalised id, kind, queue,
    status or dataset id of a job, the search test lets the job through. *)
Theorem search_finds_by_field (j id kind queue status dataset v : jsval) (qq : jsstring) :
  get j (lit "id") = Some id → get j (lit "kind") = Some kind →
  get j (lit "queue") = Some queue → get j (lit "status") = Some status →
  jobDatasetId j = Some dataset →
  v ∈ [id; kind; queue; status; dataset] →
  includes (norm ToStringRest toLowerCase v) qq = true →
  search_matches ToStringRest toLowerCase qq j = Some true.
Proof.
  intros Hi Hk Hq Hs Hd Hv Hinc. unfold search_matches, hay.
  case_bool_decide; [done|]. rewrite Hi, Hk, Hq, Hs, Hd. cbn [mbind option_bind].
  f_equal.
  destruct (join_member (lit " ")
              (norm ToStringRest toLowerCase <$> [id; kind; queue; status; dataset])
              (norm ToStringRest toLowerCase v)) as (a & b & ->).
  - by apply list_elem_of_fmap_2.
  - by apply includes_within.
Qed.

End JobTableFacts.

Section JobTableWitnesses.
Import Js Views.

Lemma filtered_shows_matching_rows_witness :
  ∃ items, rows two_jobs = JsArr items
    ∧ [pending_job] `sublist_of` items
    ∧ (length [pending_job] ≤ length items)%nat
    ∧ ∀ j, j ∈ [pending_job] →
        (lit "pending" ≠ lit "all" →
         ∃ st, get j (lit "status") = Some st
               ∧ norm (λ _, []) ascii_lower st = lit "pending")
        ∧ (lit "all" ≠ lit "all" →
           ∃ qu, get j (lit "queue") = Some qu
                 ∧ norm (λ _, []) ascii_lower qu = lit "all").
Proof.
  apply (filtered_shows_matching_rows (λ _, []) ascii_lower two_jobs (lit " KB ")
           (lit "pending") (lit "all") [pending_job]).
  vm_compute. reflexivity.
Defined.


Lemma search_finds_by_field_witness :
  search_matches (λ _, []) ascii_lower (lit "d7") pending_job = Some true.
Proof.
  apply (search_finds_by_field (λ _, []) ascii_lower pending_job
           (JsStr (lit "9c1d03aa")) (JsStr (lit "kb.create")) (JsStr (lit "default"))
           (JsStr (lit "pending")) (JsStr (lit "D7")) (JsStr (lit "D7")));
    try (vm_compute; reflexivity).
  do 4 right. left.
Defined.

End JobTableWitnesses.

Section TimeFacts.
Import Js Views.
Variable getTime : jsval → option Z.
Variable now : Z.

(** X10. For a date that parses, [timeAgo] rounds down: it shows
    seconds below a minute, whole minutes from 1 to 59 below an hour,
    and whole hours from 1 on; a date less than a second ago or in the
    future shows as "0s ago". *)
Theorem timeAgo_rounds_down (iso : jsval) (t : Z) :
  truthy iso = true → getTime iso = Some t →
  let s := Z.max 0 ((now - t) `div` 1000) in
  ((now - t < 1000)%Z → timeAgo getTime now iso = lit "0s ago")
  ∧ ∃ n, (timeAgo getTime now iso = decimal n ++ lit "s ago"
          ∧ n = s ∧ (0 ≤ n < 60)%Z)
       ∨ (timeAgo getTime now iso = decimal n ++ lit "m ago"
          ∧ (1 ≤ n < 60)%Z ∧ (60 * n ≤ s < 60 * (n + 1))%Z)
       ∨ (timeAgo getTime now iso = decimal n ++ lit "h ago"
          ∧ (1 ≤ n)%Z ∧ (3600 * n ≤ s < 3600 * (n + 1))%Z).
Proof.
  intros Ht Hg s. unfold timeAgo. rewrite Ht, Hg. cbn [negb]. fold s.
  assert (Hs0 : (0 ≤ s)%Z) by (unfold s; lia).
  split.
  - intros Hlt. assert (s = 0) as ->.
    { unfold s. assert (((now - t) `div` 1000) ≤ 0)%Z; [|lia].
      apply Z.lt_succ_r. apply Z.div_lt_upper_bound; lia. }
    reflexivity.
  - case_bool_decide as H1.
    + exists s. left. split; [done|]. lia.
    + case_bool_decide as H2.
      * exists (s `div` 60). right; left. split; [done|].
        pose proof (Z.div_mod s 60 ltac:(lia)).
        pose proof (Z.mod_pos_bound s 60 ltac:(lia)).
        lia.
      * exists ((s `div` 60) `div` 60). right; right. split; [done|].
        pose proof (Z.div_mod s 60 ltac:(lia)).
        pose proof (Z.mod_pos_bound s 60 ltac:(lia)).
        pose proof (Z.div_mod (s `div` 60) 60 ltac:(lia)).
        pose proof (Z.mod_pos_bound (s `div` 60) 60 ltac:(lia)).
        lia.
Qed.


End TimeFacts.

Section TimeWitness.
Import Js Views.

Lemma timeAgo_rounds_down_witness :
  let iso := JsStr (lit "2024-12-22T10:00:00Z") in
  let s := Z.max 0 ((7381000 - 1000) `div` 1000) in
  ((7381000 - 1000 < 1000)%Z → timeAgo (λ _, Some 1000) 7381000 iso = lit "0s ago")
  ∧ ∃ n, (timeAgo (λ _, Some 1000) 7381000 iso = decimal n ++ lit "s ago"
          ∧ n = s ∧ (0 ≤ n < 60)%Z)
       ∨ (timeAgo (λ _, Some 1000) 7381000 iso = decimal n ++ lit "m ago"
          ∧ (1 ≤ n < 60)%Z ∧ (60 * n ≤ s < 60 * (n + 1))%Z)
       ∨ (timeAgo (λ _, Some 1000) 7381000 iso = decimal n ++ lit "h ago"
          ∧ (1 ≤ n)%Z ∧ (3600 * n ≤ s < 3600 * (n + 1))%Z).
Proof.
  apply (timeAgo_rounds_down (λ _, Some 1000) 7381000
           (JsStr (lit "2024-12-22T10:00:00Z")) 1000); reflexivity.
Defined.

Example timeAgo_two_hours :
  timeAgo (λ _, Some 1000) 7381000 (JsStr (lit "2024-12-22T10:00:00Z")) = lit "2h ago".
Proof. vm_compute. reflexivity. Qed.

End TimeWitness.

Section EventFacts.
Import Js Views.
Variable getTime : jsval → option Z.

Lemma insert_by_perm k x l : insert_by k x l ≡ₚ (k, x) :: l.
Proof.
  induction l as [|[k' y] l IH]; cbn; [done|].
  case_bool_decide; [done|]. rewrite IH. apply Permutation_swap.
Qed.

Lemma sort_by_perm l : sort_by l ≡ₚ l.
Proof.
  induction l as [|[k x] l IH]; cbn; [done|]. by rewrite insert_by_perm, IH.
Qed.

Lemma insert_by_sorted k x l :
  Sorted Z.le l.*1 → Sorted Z.le (insert_by k x l).*1.
Proof.
  induction l as [|[k' y] l IH]; cbn; [repeat constructor|].
  intros Hs. case_bool_decide as Hk; cbn.
  - constructor; [done|]. by constructor.
  - apply Sorted_inv in Hs as [Hs Hhd]. constructor; [by apply IH|].
    destruct l as [|[k'' z] l]; cbn in *.
    + constructor. lia.
    + case_bool_decide; cbn; constructor; [lia|]. by inversion Hhd.
Qed.

Lemma sort_by_sorted l : Sorted Z.le (sort_by l).*1.
Proof.
  induction l as [|[k x] l IH]; cbn; [constructor|]. by apply insert_by_sorted.
Qed.

Lemma insert_by_filter k0 k x l :
  List.filter (λ p : Z * jsval, bool_decide (p.1 = k0)) (insert_by k x l)
  = List.filter (λ p : Z * jsval, bool_decide (p.1 = k0)) ((k, x) :: l).
Proof.
  induction l as [|[k' y] l IH]; [done|]. cbn [insert_by].
  case_bool_decide as Hk; [done|].
  cbn [List.filter fst] in *. rewrite IH.
  repeat case_bool_decide; try done. lia.
Qed.

Lemma sort_by_stable k0 l :
  List.filter (λ p : Z * jsval, bool_decide (p.1 = k0)) (sort_by l)
  = List.filter (λ p : Z * jsval, bool_decide (p.1 = k0)) l.
Proof.
  induction l as [|[k x] l IH]; [done|]. cbn [sort_by].
  rewrite insert_by_filter. cbn. by rewrite IH.
Qed.

Lemma sort_by_same_key k l : Forall (λ p : Z * jsval, p.1 = k) l → sort_by l = l.
Proof.
  induction 1 as [|[k' x] l Hk HF IH]; [done|]. cbn in *. subst k'. rewrite IH.
  destruct HF as [|[k' y] l Hk' HF]; [done|]. cbn in *. subst k'.
  by rewrite bool_decide_eq_true_2.
Qed.

Lemma keyed_spec items l :
  keyed getTime items = Some l ↔
  l.*2 = items ∧ Forall (λ p, sort_key getTime p.2 = Some p.1) l.
Proof.
  unfold keyed. revert l. induction items as [|ev items IH]; intros l.
  - cbn. split.
    + intros [= <-]. by split.
    + intros [Hl _]. by apply fmap_nil_inv in Hl as ->.
  - cbn. split.
    + destruct (sort_key getTime ev) as [k|] eqn:Hk; cbn; [|done].
      destruct (mapM _ items) as [l0|] eqn:Hm; cbn; [|done].
      intros [= <-]. destruct (proj1 (IH l0) eq_refl) as [<- HF]. split; [done|].
      by constructor.
    + intros [Hl HF]. destruct l as [|[k ev'] l]; [done|].
      cbn in Hl. injection Hl as -> Hl. apply Forall_cons in HF as [Hk HF].
      cbn in Hk. rewrite Hk. cbn.
      by rewrite (proj2 (IH l) (conj Hl HF)).
Qed.

Lemma keyed_defined items l :
  keyed getTime items = Some l →
  List.filter (λ v, negb (is_undefined v)) items = items
  ∧ List.filter is_undefined items = [].
Proof.
  intros [<- HF]%keyed_spec. induction l as [|[k ev] l IH]; [done|].
  apply Forall_cons in HF as [Hk HF]. destruct (IH HF) as [IH1 IH2].
  cbn in *. destruct ev; try done; cbn; by rewrite ?IH1, ?IH2.
Qed.

(** X12. [normalizeEvents] sorts without losing anything: for events
    that all have a key, the result has the same events, in ascending
    order of their time keys, and events with the same key keep the
    order they had. *)
Theorem normalizeEvents_sorts_stably (items : list jsval) (l : list (Z * jsval)) :
  keyed getTime items = Some l →
  ∃ out l', normalizeEvents getTime (JsArr items) = Some out
    ∧ out ≡ₚ items
    ∧ keyed getTime out = Some l'
    ∧ Sorted Z.le l'.*1
    ∧ ∀ k, List.filter (λ p : Z * jsval, bool_decide (p.1 = k)) l'
           = List.filter (λ p : Z * jsval, bool_decide (p.1 = k)) l.
Proof.
  intros Hk. pose proof Hk as [Hitems HF]%keyed_spec.
  pose proof (keyed_defined _ _ Hk) as [Hdef Hundef].
  exists (sort_by l).*2, (sort_by l).
  assert (Hkeyed : keyed getTime (sort_by l).*2 = Some (sort_by l)).
  { apply keyed_spec. split; [done|]. by rewrite sort_by_perm. }
  split; [|split; [by rewrite sort_by_perm, Hitems|split; [done|split]]].
  - cbn. rewrite Hdef, Hundef, Hk. cbn. rewrite app_nil_r.
    case_bool_decide as Hlen; [|by rewrite app_nil_r].
    f_equal. rewrite <-Hitems in Hlen |- *. rewrite length_fmap in Hlen.
    destruct l as [|[k x] [|? ?]]; cbn in *; [done|done|lia].
  - apply sort_by_sorted.
  - intros k. apply sort_by_stable.
Qed.

(** X13. The edges of [normalizeEvents]: what is not an array gives no
    events; fewer than two events come back as they are; events that all
    have the same key (none has a timestamp that parses, say) keep their
    order; [undefined] elements are put last, unread, behind the others;
    and a [null] among two or more elements that are not [undefined]
    makes the comparator throw. *)
Theorem normalizeEvents_edges (events : jsval) (items : list jsval) (k : Z) :
  ((∀ l, events ≠ JsArr l) → normalizeEvents getTime events = Some [])
  ∧ ((length items < 2)%nat → normalizeEvents getTime (JsArr items) = Some items)
  ∧ ((∀ ev, ev ∈ items → sort_key getTime ev = Some k) →
     normalizeEvents getTime (JsArr items) = Some items)
  ∧ (∀ out, normalizeEvents getTime (JsArr items) = Some out →
       ∃ front, out = front ++ List.filter is_undefined items
                ∧ front ≡ₚ List.filter (λ v, negb (is_undefined v)) items)
  ∧ ((2 ≤ length (List.filter (λ v, negb (is_undefined v)) items))%nat →
     JsNull ∈ items → normalizeEvents getTime (JsArr items) = None).
Proof.
  split; [|split; [|split; [|split]]].
  - intros H. destruct events; try done. by destruct (H items0).
  - intros H. destruct items as [|x [|y items]]; [done| |cbn in H; lia].
    by destruct x.
  - intros H.
    assert (Hk : keyed getTime items = Some ((λ ev, (k, ev)) <$> items)).
    { apply keyed_spec. split.
      - rewrite <-list_fmap_compose. by rewrite list_fmap_id.
      - apply Forall_fmap, Forall_forall. intros ev Hev. cbn. by apply H. }
    pose proof (keyed_defined _ _ Hk) as [Hdef Hundef].
    cbn. rewrite Hdef, Hundef, app_nil_r. case_bool_decide; [done|].
    rewrite Hk. cbn. rewrite (sort_by_same_key k), app_nil_r.
    + rewrite <-list_fmap_compose. by rewrite list_fmap_id.
    + apply Forall_fmap, Forall_forall. by intros ev _.
  - intros out. cbn. case_bool_decide.
    + intros [= <-]. by eexists.
    + destruct (keyed getTime _) as [l|] eqn:Hk; [|done]. cbn. intros [= <-].
      eexists. split; [done|]. apply keyed_spec in Hk as [<- _].
      by rewrite sort_by_perm.
  - intros Hlen Hin. cbn. rewrite bool_decide_eq_false_2 by lia.
    destruct (keyed getTime _) as [l|] eqn:Hk; [|done].
    apply keyed_spec in Hk as [Hl HF].
    assert (Hin' : JsNull ∈ l.*2).
    { rewrite Hl. apply list_elem_of_In, filter_In.
      split; [by apply list_elem_of_In|done]. }
    apply list_elem_of_fmap in Hin' as ([k0 ev0] & Hev & Hin').
    rewrite Forall_forall in HF. specialize (HF _ Hin'). cbn in *. by subst ev0.
Qed.

End EventFacts.

Section DrawerFacts.
Import Js Views.

Lemma normalizeEvents_sorts_stably_witness :
  ∃ out l', normalizeEvents sample_time (JsArr three_events) = Some out
    ∧ out ≡ₚ three_events
    ∧ keyed sample_time out = Some l'
    ∧ Sorted Z.le l'.*1
    ∧ ∀ k, List.filter (λ p : Z * jsval, bool_decide (p.1 = k)) l'
           = List.filter (λ p : Z * jsval, bool_decide (p.1 = k))
               [(30, event_at "claimed" 30); (10, event_at "submitted" 10);
                (30, event_at "progress" 30)].
Proof.
  apply (normalizeEvents_sorts_stably sample_time three_events).
  vm_compute. reflexivity.
Defined.

Example normalizeEvents_three :
  normalizeEvents sample_time (JsArr three_events)
  = Some [event_at "submitted" 10; event_at "claimed" 30; event_at "progress" 30].
Proof. vm_compute. reflexivity. Qed.

(** X14. Expanding and collapsing an event: [toggle(i)] twice restores
    the set of expanded events, once flips the membership of [i], and
    never touches another index. *)
Theorem toggle_twice (i j : nat) (expanded : gset nat) :
  toggle i (toggle i expanded) = expanded
  ∧ (i ∈ toggle i expanded ↔ i ∉ expanded)
  ∧ (j ≠ i → (j ∈ toggle i expanded ↔ j ∈ expanded)).
Proof.
  unfold toggle. split; [|split; [|intros Hj]].
  - apply set_eq. intros x. destruct (decide (x = i)) as [->|Hx];
      repeat case_bool_decide; set_solver.
  - case_bool_decide; set_solver.
  - case_bool_decide; set_solver.
Qed.

(** X15. [eventType] gives a label for every event that is not [null]:
    never [null] or [undefined], the [type] field when there is one, and
    "event" when [type], [event_type] and [name] are all missing. *)
Theorem eventType_never_nullish (ev v : jsval) :
  eventType ev = Some v →
  is_nullish v = false
  ∧ (is_nullish (get_opt ev (lit "type")) = true →
     is_nullish (get_opt ev (lit "event_type")) = true →
     is_nullish (get_opt ev (lit "name")) = true → v = JsStr (lit "event"))
  ∧ (is_nullish (get_opt ev (lit "type")) = false → v = get_opt ev (lit "type")).
Proof.
  unfold eventType, get_opt. destruct (get ev (lit "type")) as [ty|] eqn:Hty; [|done].
  cbn. intros [= <-].
  destruct ty, (default JsUndefined (get ev (lit "event_type"))),
    (default JsUndefined (get ev (lit "name"))); cbn; done.
Qed.

Lemma eventType_never_nullish_witness :
  is_nullish (JsStr (lit "claimed")) = false
  ∧ (is_nullish (get_opt (event_at "claimed" 30) (lit "type")) = true →
     is_nullish (get_opt (event_at "claimed" 30) (lit "event_type")) = true →
     is_nullish (get_opt (event_at "claimed" 30) (lit "name")) = true →
     JsStr (lit "claimed") = JsStr (lit "event"))
  ∧ (is_nullish (get_opt (event_at "claimed" 30) (lit "type")) = false →
     JsStr (lit "claimed") = get_opt (event_at "claimed" 30) (lit "type")).
Proof.
  apply (eventType_never_nullish (event_at "claimed" 30) (JsStr (lit "claimed"))).
  reflexivity.
Defined.

End DrawerFacts.

Section ViewCreateFacts.
Import Js Views CreateJobModal ViewCreate.

Lemma event_result_not_nullish ev r : event_result ev = Some r → is_nullish r = false.
Proof.
  unfold event_result.
  repeat case_match; intros ?; simplify_eq; try done; by apply negb_true_iff.
Qed.

Lemma last_event_result_null l :
  last_event_result l = JsNull ↔ Forall (λ ev, event_result ev = None) l.
Proof.
  induction l as [|ev l IH]; cbn; [by split|].
  destruct (event_result ev) as [r|] eqn:Hr.
  - split.
    + intros ->. by apply event_result_not_nullish in Hr.
    + intros [H _]%Forall_cons. cbn in H. congruence.
  - rewrite IH, Forall_cons. tauto.
Qed.

Lemma last_event_result_not_undefined l : last_event_result l ≠ JsUndefined.
Proof.
  induction l as [|ev l IH]; cbn; [done|].
  destruct (event_result ev) as [r|] eqn:Hr; [|done].
  intros ->. by apply event_result_not_nullish in Hr.
Qed.

(** X16. [extractResult] never gives [undefined], and it gives [null]
    exactly when the job has no [result], no [output], no
    [payload.result], and none of its events carries a [result],
    [output], [text], [image_url] or [url]. *)
Theorem extractResult_null_iff (job : jsval) :
  extractResult job ≠ JsUndefined
  ∧ (extractResult job = JsNull ↔
     is_nullish (get_opt job (lit "result")) = true
     ∧ is_nullish (get_opt job (lit "output")) = true
     ∧ is_nullish (get_opt (get_opt job (lit "payload")) (lit "result")) = true
     ∧ ∀ items ev, get_opt job (lit "events") = JsArr items → ev ∈ items →
                   event_result ev = None).
Proof.
  unfold extractResult.
  destruct (is_nullish (get_opt job (lit "result"))) eqn:H1; cbn.
  2:{ split; [by intros H; rewrite H in H1|]. split; [by intros H; rewrite H in H1|].
      by intros [[=] _]. }
  destruct (is_nullish (get_opt job (lit "output"))) eqn:H2; cbn.
  2:{ split; [by intros H; rewrite H in H2|]. split; [by intros H; rewrite H in H2|].
      by intros (_ & [=] & _). }
  destruct (is_nullish (get_opt (get_opt job (lit "payload")) (lit "result"))) eqn:H3; cbn.
  2:{ split; [by intros H; rewrite H in H3|]. split; [by intros H; rewrite H in H3|].
      by intros (_ & _ & [=] & _). }
  split; [apply last_event_result_not_undefined|].
  rewrite last_event_result_null, Forall_reverse, Forall_forall.
  split.
  - intros H. do 3 (split; [done|]). intros items ev Hev Hin. rewrite Hev in H.
    by apply H.
  - intros (_ & _ & _ & H) ev Hin.
    destruct (get_opt job (lit "events")); try by apply elem_of_nil in Hin.
    by eapply H.
Qed.

Lemma last_event_result_skip newer ev r older :
  Forall (λ e, event_result e = None) newer → event_result ev = Some r →
  last_event_result (newer ++ ev :: older) = r.
Proof.
  induction 1 as [|e newer He _ IH]; intros Hr; cbn; [by rewrite Hr|].
  rewrite He. by apply IH.
Qed.

(** X17. When the job itself carries no result, [extractResult] takes
    it from the latest event that carries one, whatever the earlier
    events carry. *)
Theorem extractResult_latest_event (job ev r : jsval) (older newer : list jsval) :
  is_nullish (get_opt job (lit "result")) = true →
  is_nullish (get_opt job (lit "output")) = true →
  is_nullish (get_opt (get_opt job (lit "payload")) (lit "result")) = true →
  get_opt job (lit "events") = JsArr (older ++ ev :: newer) →
  event_result ev = Some r →
  (∀ e, e ∈ newer → event_result e = None) →
  extractResult job = r.
Proof.
  intros H1 H2 H3 He Hr Hn. unfold extractResult. rewrite H1, H2, H3, He. cbn.
  rewrite reverse_app, reverse_cons, <-app_assoc. cbn.
  apply last_event_result_skip; [|done].
  apply Forall_reverse, Forall_forall. done.
Qed.

Lemma extractResult_latest_event_witness :
  extractResult job_with_events = JsStr (lit "hello").
Proof.
  apply (extractResult_latest_event job_with_events
           (JsObj [(lit "text", JsStr (lit "hello"))]) (JsStr (lit "hello"))
           [JsObj [(lit "type", JsStr (lit "claimed"))]]
           [JsObj [(lit "type", JsStr (lit "completed"))]]);
    try reflexivity.
  intros e [->|[]%elem_of_nil]%elem_of_cons. reflexivity.
Defined.

Lemma poll_job_mode answers s s' : poll_job answers s = Some s' → mode s' = lit "result".
Proof.
  revert s. induction answers as [|[e|j] answers IH]; intros s; cbn;
    [done|by intros [= <-]|].
  case_match; [by intros [= <-]|]. apply IH.
Qed.

(** X18. Whenever [submitJob] finishes, the screen is in mode "result".
    When the post fails, the error shown is its message; when the answer
    has neither [id] nor [job_id], the error is "No job ID returned";
    in both cases no result is shown. *)
Theorem submitJob_failures (s0 : screen) (post : js_error + jsval)
    (answers : list (js_error + jsval)) (s : screen) :
  submitJob s0 post answers = Some s →
  mode s = lit "result"
  ∧ (∀ e, post = inl e → error s = err_message e ∧ result s = JsNull)
  ∧ (∀ created, post = inr created →
       truthy (nullish (get_opt created (lit "id")) (get_opt created (lit "job_id")))
       = false →
       error s = lit "No job ID returned" ∧ result s = JsNull ∧ jobId s = jobId s0).
Proof.
  unfold submitJob. destruct post as [e|created].
  - intros [= <-]. split; [done|]. split; [by intros ? [= <-]|done].
  - destruct (truthy _) eqn:Hid; cbn.
    + intros H%poll_job_mode. split; [done|]. split; [by intros ? [=]|].
      intros ? [= <-]. congruence.
    + intros [= <-]. split; [done|]. split; [by intros ? [=]|]. by intros ? [= <-] _.
Qed.

Lemma submitJob_failures_witness :
  mode (finish blank_screen (lit "No job ID returned")) = lit "result"
  ∧ error (finish blank_screen (lit "No job ID returned")) = lit "No job ID returned".
Proof.
  destruct (submitJob_failures blank_screen (inr (JsObj [])) [inr job_running]
              (finish blank_screen (lit "No job ID returned")) eq_refl)
    as (Hm & _ & Hid).
  split; [exact Hm|]. exact (proj1 (Hid (JsObj []) eq_refl eq_refl)).
Defined.

Lemma poll_job_running pre more s :
  Forall (λ j, isTerminal (status_of j) = false) pre →
  poll_job ((inr <$> pre) ++ more) s
  = poll_job more {| mode := mode s; error := error s;
                     result := latest_result (result s) pre;
                     jobId := jobId s;
                     jobStatus := default (jobStatus s) (last (status_of <$> pre)) |}.
Proof.
  intros H. revert s. induction H as [|j pre Hj _ IH]; intros s; cbn.
  - by destruct s.
  - fold (status_of j). rewrite Hj, IH. cbn. f_equal. f_equal.
    rewrite last_cons. by destruct (last (status_of <$> pre)).
Qed.

(** X19. [submitJob] polls until the first terminal status and no
    further: after polls that saw the job not yet terminal and one that
    saw it terminal, the screen shows mode "result", the job's status,
    "Job failed" or "Job cancelled" for those statuses and no error for
    [done], and the latest result any of the polls found; the answers
    after the terminal one play no part. *)
Theorem submitJob_stops_at_terminal (s0 : screen) (created j : jsval)
    (pre : list jsval) (post_answers : list (js_error + jsval)) :
  let id := nullish (get_opt created (lit "id")) (get_opt created (lit "job_id")) in
  truthy id = true →
  Forall (λ p, isTerminal (status_of p) = false) pre →
  isTerminal (status_of j) = true →
  submitJob s0 (inr created) ((inr <$> pre) ++ inr j :: post_answers)
  = Some {| mode := lit "result";
            error := terminal_error (status_of j);
            result := latest_result JsNull (pre ++ [j]);
            jobId := id;
            jobStatus := status_of j |}.
Proof.
  intros id Hid Hpre Hj. unfold submitJob. fold id. rewrite Hid. cbn [negb].
  rewrite poll_job_running by done. cbn. fold (status_of j). rewrite Hj.
  unfold finish, terminal_error, latest_result. cbn. rewrite foldl_app. done.
Qed.

Lemma submitJob_stops_at_terminal_witness :
  submitJob blank_screen (inr created_job)
    ((inr <$> [job_running; job_running]) ++ inr job_with_events :: [inr job_running])
  = Some {| mode := lit "result";
            error := terminal_error (status_of job_with_events);
            result := latest_result JsNull ([job_running; job_running] ++ [job_with_events]);
            jobId := nullish (get_opt created_job (lit "id"))
                       (get_opt created_job (lit "job_id"));
            jobStatus := status_of job_with_events |}.
Proof.
  apply (submitJob_stops_at_terminal blank_screen created_job job_with_events
           [job_running; job_running] [inr job_running]).
  - reflexivity.
  - repeat constructor.
  - reflexivity.
Defined.

End ViewCreateFacts.

Section HookFacts.
Import Js CreateJobModal Hooks.

Lemma run_ticks_snoc ticks i : run_ticks (ticks ++ [i]) = tick (run_ticks ticks) i.
Proof. unfold run_ticks. by rewrite foldl_app. Qed.

Lemma tick_ineffective s i : effective i = false → tick s i = s.
Proof. unfold effective, tick. by destruct (hidden i), (alive i). Qed.

Lemma tick_effective s i :
  effective i = true →
  tick s i = match outcome i with
             | inr v => {| data := v; error := None; loading := false |}
             | inl e => {| data := data s; error := Some e; loading := false |}
             end.
Proof. unfold effective, tick. by destruct (hidden i), (alive i). Qed.

Lemma filter_effective_snoc ticks i :
  List.filter effective (ticks ++ [i])
  = if effective i then List.filter effective ticks ++ [i]
    else List.filter effective ticks.
Proof.
  rewrite List.filter_app. cbn. destruct (effective i); [done|by rewrite app_nil_r].
Qed.

Lemma successes_snoc ticks i :
  omap success_value (ticks ++ [i])
  = match success_value i with
    | Some v => omap success_value ticks ++ [v]
    | None => omap success_value ticks
    end.
Proof.
  rewrite omap_app. cbn. destruct (success_value i); [done|by rewrite app_nil_r].
Qed.

Lemma usePoll_data ticks :
  data (run_ticks ticks) = default JsNull (last (omap success_value ticks)).
Proof.
  induction ticks as [|i ticks IH] using rev_ind; [done|].
  rewrite run_ticks_snoc, successes_snoc. unfold success_value at 1.
  destruct (effective i) eqn:He.
  - rewrite tick_effective by done. destruct (outcome i); cbn; [done|].
    by rewrite last_snoc.
  - by rewrite tick_ineffective.
Qed.

Lemma run_ticks_last ticks :
  run_ticks ticks
  = match last (List.filter effective ticks) with
    | None => initial
    | Some i =>
        match outcome i with
        | inr v => {| data := v; error := None; loading := false |}
        | inl e => {| data := default JsNull (last (omap success_value ticks));
                      error := Some e; loading := false |}
        end
    end.
Proof.
  induction ticks as [|i ticks IH] using rev_ind; [done|].
  rewrite run_ticks_snoc, filter_effective_snoc.
  destruct (effective i) eqn:He.
  - rewrite last_snoc, tick_effective by done.
    destruct (outcome i) as [e|v] eqn:Ho; [|done].
    rewrite usePoll_data, successes_snoc.
    assert (success_value i = None) as -> by (unfold success_value; by rewrite He, Ho).
    done.
  - rewrite tick_ineffective, IH by done. rewrite successes_snoc.
    assert (success_value i = None) as -> by (unfold success_value; by rewrite He).
    done.
Qed.

(** X20. The state of [usePoll] after any sequence of ticks depends on
    the last tick that took effect (tab visible, effect alive): none
    yet, the initial state; a success, its value and no error; a
    failure, that error together with the value of the last success,
    if any. Ticks in a hidden tab or after the clean-up change nothing. *)
Theorem usePoll_state_after (ticks : list tick_input) :
  run_ticks ticks
  = match last (List.filter effective ticks) with
    | None => initial
    | Some i =>
        match outcome i with
        | inr v => {| data := v; error := None; loading := false |}
        | inl e => {| data := default JsNull (last (omap success_value ticks));
                      error := Some e; loading := false |}
        end
    end.
Proof. apply run_ticks_last. Qed.

(** X21. What the operator sees: the loading line until the first tick
    takes effect and never again; the error line whenever the last
    effective tick failed, also when earlier data is held; the data of
    the last effective tick when it succeeded. *)
Theorem usePoll_view (ticks : list tick_input) :
  (view (run_ticks ticks) = Loading ↔ List.filter effective ticks = [])
  ∧ (∀ i e, last (List.filter effective ticks) = Some i → outcome i = inl e →
       view (run_ticks ticks) = Failed (shown e))
  ∧ (∀ i v, last (List.filter effective ticks) = Some i → outcome i = inr v →
       view (run_ticks ticks) = Contents v).
Proof.
  rewrite run_ticks_last. split; [|split].
  - rewrite <-last_None. destruct (last (List.filter effective ticks)) as [i|]; [|done].
    by destruct (outcome i).
  - intros i e -> ->. done.
  - intros i v -> ->. done.
Qed.

End HookFacts.

(** ** Part IX. More facts about the smoke test and the modal *)

Section SmokeLoopFacts.
Import SmokeTest SmokeMore.

Lemma poll_skips_running status err pre more log0 :
  Forall (λ v, running (phase v) = true) pre →
  running status = true →
  ∃ status' err' log1,
    running status' = true
    ∧ poll status err ((RestOk <$> pre) ++ more) log0
      = poll status' err' more (log0 ++ log1).
Proof.
  intros Hpre. revert status err log0.
  induction Hpre as [|v pre Hv _ IH]; intros status err log0 Hrun.
  - exists status, err, []. by rewrite app_nil_r.
  - cbn. fold (running status). rewrite Hrun.
    destruct (IH (phase v) (error v)
                (log0 ++ [Host ("Phase: " +:+ phase v +:+ " (Epoch: " +:+ epoch v
                                +:+ ", Step: " +:+ step v +:+ ")")]) Hv)
      as (status' & err' & log1 & Hr & ->).
    exists status', err', ([Host ("Phase: " +:+ phase v +:+ " (Epoch: " +:+ epoch v
                                +:+ ", Step: " +:+ step v +:+ ")")] ++ log1).
    split; [done|]. by rewrite <-!app_assoc.
Qed.

(** X22. Once the lock step has passed, the script polls until the
    first phase that is [Ready] or [Failed] (in any letter case): it
    then exits with 0 for [Ready] and 1 for [Failed], whatever would
    come after; a poll that throws before that makes it exit with 1; and
    while every phase is another one it keeps polling. *)
Theorem lock_test_polls_until_terminal
    (c : created) (st : http_status) (msg : string)
    (pre : list job_view) (j : job_view) (post : list (rest job_view))
    (r : option http_status) (m : string) :
  code st = 409%N →
  Forall (λ v, running (phase v) = true) pre →
  (running (phase j) = false →
   ∃ log, lock_test (RestOk c) (RestThrows (Some st) msg)
            ((RestOk <$> pre) ++ RestOk j :: post)
          = Some (log, if eq_ci (phase j) "Failed" then 1 else 0))
  ∧ (∃ log, lock_test (RestOk c) (RestThrows (Some st) msg)
              ((RestOk <$> pre) ++ RestThrows r m :: post) = Some (log, 1))
  ∧ lock_test (RestOk c) (RestThrows (Some st) msg) (RestOk <$> pre) = None.
Proof.
  intros Hc Hpre. unfold lock_test, is_conflict. rewrite bool_decide_eq_true_2 by done.
  split; [|split].
  - intros Hj.
    edestruct (poll_skips_running "Pending" "" pre (RestOk j :: post)) as
      (status' & err' & log1 & Hr & ->); [done|done|].
    cbn. fold (running status'). rewrite Hr. destruct post as [|p post]; cbn;
      fold (running (phase j)); rewrite Hj; destruct (eq_ci (phase j) "Failed"); eauto.
  - edestruct (poll_skips_running "Pending" "" pre (RestThrows r m :: post)) as
      (status' & err' & log1 & Hr & ->); [done|done|].
    cbn. fold (running status'). rewrite Hr. eauto.
  - rewrite <-(app_nil_r (RestOk <$> pre)).
    edestruct (poll_skips_running "Pending" "" pre []) as
      (status' & err' & log1 & Hr & ->); [done|done|].
    cbn. fold (running status'). by rewrite Hr.
Qed.

Lemma lock_test_polls_until_terminal_witness :
  (running (phase ready) = false →
   ∃ log, lock_test (RestOk first_job) (RestThrows (Some conflict) "409 (Conflict)")
            ((RestOk <$> [training]) ++ RestOk ready :: [RestOk training])
          = Some (log, if eq_ci (phase ready) "Failed" then 1 else 0))
  ∧ (∃ log, lock_test (RestOk first_job) (RestThrows (Some conflict) "409 (Conflict)")
              ((RestOk <$> [training]) ++ RestThrows None "timeout" :: [RestOk training])
            = Some (log, 1))
  ∧ lock_test (RestOk first_job) (RestThrows (Some conflict) "409 (Conflict)")
      (RestOk <$> [training]) = None.
Proof.
  apply (lock_test_polls_until_terminal first_job conflict "409 (Conflict)"
           [training] ready [RestOk training] None "timeout").
  - reflexivity.
  - repeat constructor.
Defined.

End SmokeLoopFacts.

Section ModalTraceFacts.
Import Js CreateJobModal.
Variable JSON_parse : jsstring → option jsval.
Variable StringToNumber : jsstring → float.
Variable postJob : job → js_error + jsval.


End ModalTraceFacts.
